(** * GadoBot: the message pipeline of [ai.ts] and the chat queue of [index.ts]

    A shallow embedding of the TypeScript sources.  JavaScript strings are
    sequences of UTF-16 code units, [Map<number, _>] is a [gmap Z _], the
    SQLite tables are lists of rows, and every call that leaves the process
    (Telegram API, HTTP backend) is recorded in a call log and answered by an
    environment record, which also holds the texts of the errors that the
    engine and the SQLite driver raise. *)

From Stdlib Require Import String Ascii DecimalString.
From stdpp Require Import base numbers option list gmap.

Local Open Scope Z_scope.

(** ** JavaScript values and strings *)

Module JS.

(** A JS string is a sequence of 16-bit code units. *)
Abbreviation jsstring := (list N).

(** An ASCII literal of the source, one code unit per character. *)
Definition lit (s : string) : jsstring :=
  List.map N_of_ascii (list_ascii_of_string s).

(** The values that flow through the pipeline.  [VNum] stands for the
    numbers and booleans a backend may put where the text is expected. *)
Inductive value :=
| VUndefined
| VNull
| VStr (s : jsstring)
| VNum (n : Z).

(** What is read from a JSON response where the text is expected: one of
    the values above, or an array or an object.  These last are truthy, have
    no method [match], and are nothing the SQLite driver can bind. *)
Inductive json :=
| Scalar (v : value)
| Composite.

(** ToBoolean. *)
Definition truthy (v : value) : bool :=
  match v with
  | VUndefined | VNull => false
  | VStr s => negb (bool_decide (s = []))
  | VNum n => negb (n =? 0)
  end.

(** [a || b] *)
Definition or_else (a b : value) : value := if truthy a then a else b.

(** WhiteSpace and LineTerminator code units, the ones [trim] strips. *)
Definition isWhiteSpace (c : N) : bool :=
  (existsb (N.eqb c)
     [9; 10; 11; 12; 13; 32; 160; 5760; 8232; 8233; 8239; 8287; 12288; 65279]
   || ((8192 <=? c) && (c <=? 8202)))%N.

Fixpoint trimStart (s : jsstring) : jsstring :=
  match s with
  | c :: s' => if isWhiteSpace c then trimStart s' else s
  | [] => []
  end.

Definition trimEnd (s : jsstring) : jsstring := rev (trimStart (rev s)).

(** [String.prototype.trim] *)
Definition trim (s : jsstring) : jsstring := trimEnd (trimStart s).

Fixpoint startsWith (pat s : jsstring) : bool :=
  match pat, s with
  | [], _ => true
  | c :: pat', d :: s' => (c =? d)%N && startsWith pat' s'
  | _ :: _, [] => false
  end.

(** [s.replace(pat, rep)] with a string pattern: only the first occurrence
    of [pat] is replaced.  ([rep] is the empty string at the only call site,
    so the [$]-patterns of the replacement never come into play.) *)
Fixpoint replace (pat rep s : jsstring) {struct s} : jsstring :=
  if startsWith pat s then rep ++ drop (length pat) s
  else match s with
       | [] => []
       | c :: s' => c :: replace pat rep s'
       end.

(** [context.slice(start)] *)
Definition slice {A} (start : Z) (l : list A) : list A :=
  let len := Z.of_nat (length l) in
  let k := if start <? 0 then Z.max (len + start) 0 else Z.min start len in
  drop (Z.to_nat k) l.

(** [String(n)] for an integer in the safe range. *)
Definition string_of_number (n : Z) : jsstring :=
  lit (NilZero.string_of_int (Z.to_int n)).

(** [arr.join(sep)] *)
Fixpoint join (sep : jsstring) (l : list jsstring) : jsstring :=
  match l with
  | [] => []
  | [x] => x
  | x :: l' => x ++ sep ++ join sep l'
  end.

End JS.

(** ** Regular expressions

    The fragment of the RegExp syntax that the patterns of [ai.ts] use:
    literal characters, a negated one-character class, the greedy [+] on a
    character class, and capturing parentheses. *)

Module RegExp.
Import JS.

Inductive cclass :=
| Chr (c : N)       (* x, \x *)
| NotChr (c : N).   (* [^x] *)

Inductive item :=
| One (a : cclass)
| Plus (a : cclass)   (* a+ *)
| Open                (* ( *)
| Close.              (* ) *)

Abbreviation regexp := (list item).

Definition accepts (a : cclass) (c : N) : bool :=
  match a with
  | Chr x => (c =? x)%N
  | NotChr x => negb (c =? x)%N
  end.

(** State of one match attempt: the text matched so far, the text of the
    group being captured, and the groups already closed. *)
Record mstate := MState {
  whole : jsstring;
  cur : option jsstring;
  caps : list jsstring
}.

Definition mstart : mstate := MState [] None [].

Definition advance (c : N) (st : mstate) : mstate :=
  MState (whole st ++ [c]) ((λ g, g ++ [c]) <$> cur st) (caps st).

Definition open_group (st : mstate) : mstate :=
  MState (whole st) (Some []) (caps st).

Definition close_group (st : mstate) : mstate :=
  MState (whole st) None (caps st ++ [default [] (cur st)]).

(** Backtracking match of [p] at the start of [s].  [a+] first tries to take
    one more character and falls back to the rest of the pattern. *)
Fixpoint match_here (p : regexp) : jsstring → mstate → option mstate :=
  match p with
  | [] => λ _ st, Some st
  | One a :: p' => λ s st,
      match s with
      | c :: s' => if accepts a c then match_here p' s' (advance c st) else None
      | [] => None
      end
  | Plus a :: p' =>
      fix greedy (s : jsstring) (st : mstate) {struct s} : option mstate :=
        match s with
        | c :: s' =>
            if accepts a c then
              match greedy s' (advance c st) with
              | Some r => Some r
              | None => match_here p' s' (advance c st)
              end
            else None
        | [] => None
        end
  | Open :: p' => λ s st, match_here p' s (open_group st)
  | Close :: p' => λ s st, match_here p' s (close_group st)
  end.

(** The array that [exec] returns: [m[0]], the groups [m[1]], [m[2]], ...
    and the [index] property. *)
Record match_array := MatchArray {
  index : nat;
  matched : jsstring;
  groups : list jsstring
}.

(** [m[i]]; reading past the end of the array gives [undefined]. *)
Definition get (m : match_array) (i : nat) : value :=
  match (matched m :: groups m) !! i with
  | Some s => VStr s
  | None => VUndefined
  end.

(** The leftmost match, trying the positions [i], [i+1], ... in turn. *)
Fixpoint exec_from (p : regexp) (s : jsstring) (i : nat) : option match_array :=
  match match_here p s mstart with
  | Some st => Some (MatchArray i (whole st) (caps st))
  | None =>
      match s with
      | [] => None
      | _ :: s' => exec_from p s' (S i)
      end
  end.

(** [s.match(p)] for a pattern without the [g] flag. *)
Definition str_match (s : jsstring) (p : regexp) : option match_array :=
  exec_from p s 0.

Definition chars (s : string) : regexp := One ∘ Chr <$> lit s.

(** The texts a pattern stands for, whatever the engine tries first. *)
Inductive lang : regexp → jsstring → Prop :=
| lang_nil : lang [] []
| lang_one a c p w :
    accepts a c = true → lang p w → lang (One a :: p) (c :: w)
| lang_plus_more a c p w :
    accepts a c = true → lang (Plus a :: p) w → lang (Plus a :: p) (c :: w)
| lang_plus_last a c p w :
    accepts a c = true → lang p w → lang (Plus a :: p) (c :: w)
| lang_open p w : lang p w → lang (Open :: p) w
| lang_close p w : lang p w → lang (Close :: p) w.

(** Some stretch of [s] is a text of [p]. *)
Definition occurs (p : regexp) (s : jsstring) : Prop :=
  ∃ pre w post, s = pre ++ w ++ post ∧ lang p w.

(** The state after the characters of [w] went by. *)
Definition advance_all (w : jsstring) (st : mstate) : mstate :=
  foldl (λ st c, advance c st) st w.

End RegExp.


(** ** [ai.ts] *)

Module Ai.
Import JS RegExp.

(** *** Data *)

Inductive Role := system | user | assistant.

(** [{ role, content }] *)
Record Turn := MkTurn { role : Role; content : jsstring }.

(** A row of [logs]; the [id] column holds a fresh UUID and [time] the
    clock, neither is read back. *)
Record LogRow := MkLog {
  event : jsstring;
  type : jsstring;
  text : value;
  user_id : option Z
}.

(** A row of [gifs]; [PRIMARY KEY(hash, url)]. *)
Record GifRow := MkGif { base64 : jsstring; hash : jsstring; url : jsstring }.

(** Calls that leave the process, in the order they are made. *)
Inductive Call :=
| SendChatAction (chat : Z) (action : jsstring)
| SetMessageReaction (chat message : Z) (emoji : value)
| ReplyWithAnimation (data filename : jsstring)
| Reply (body : jsstring) (reply_to_message_id : option Z)
| Post (messages : list Turn)
| GetFile
| Download (fileUrl : jsstring).

(** The module-level state: the two maps, the two tables, and the calls
    made so far. *)
Record World := MkWorld {
  messageContexts : gmap Z (list Turn);
  lastBotMessages : gmap Z (list Z);
  logs : list LogRow;
  gifs : list GifRow;
  calls : list Call
}.

(** The part of the grammY context the handlers read. *)
Record Context := MkContext {
  chat_id : option Z;            (* ctx.chat?.id *)
  from_id : option Z;            (* ctx.from?.id *)
  first_name : option jsstring;  (* ctx.from.first_name *)
  last_name : option jsstring;   (* ctx.from.last_name *)
  message_id : option Z          (* ctx.message?.message_id *)
}.

(** What an awaited call does: it returns, or it throws an error with the
    given [message]. *)
Inductive outcome (A : Type) :=
| Returns (a : A)
| Throws (message : jsstring).
Arguments Returns {A} a.
Arguments Throws {A} message.

(** [file] of [ctx.getFile()] *)
Record File := MkFile { file_path : option jsstring; file_unique_id : jsstring }.

(** The messages of the errors that are raised inside the process.  Their
    texts are the engine's and the SQLite driver's own. *)
Record Engine := MkEngine {
  no_property : jsstring;     (* the TypeError of [ctx.chat.id] without a chat *)
  not_a_function : jsstring;  (* the TypeError of [response.match] on a value
                                 that is not a string *)
  not_bindable : jsstring     (* the driver's error on a parameter that is an
                                 array or an object *)
}.

(** The answers of the outside world during one unit of work. *)
Record Env := MkEnv {
  typing_before : outcome ();       (* first sendChatAction *)
  backend : list Turn → outcome json;
      (* axios.post, read at data?.choices?.[0]?.message?.content *)
  setMessageReaction : outcome ();
  random_row : nat;                 (* ORDER BY RANDOM() *)
  replyWithAnimation : outcome ();
  typing_after : outcome ();        (* second sendChatAction *)
  reply : outcome Z;                (* sentMessage.message_id *)
  getFile : outcome File;
  download : outcome jsstring;      (* Buffer.from(data).toString('base64') *)
  engine : Engine
}.

(** [process.env] *)
Record ProcessEnv := MkProcessEnv {
  SYSTEM_PROMPT : option jsstring;
  TELEGRAM_TOKEN : option jsstring
}.

(** *** State and exceptions *)

Definition M (A : Type) : Type := World → outcome A * World.

Global Instance M_ret : MRet M := λ A a w, (Returns a, w).

Global Instance M_bind : MBind M := λ A B f m w,
  match m w with
  | (Returns a, w') => f a w'
  | (Throws e, w') => (Throws e, w')
  end.

Definition throw {A} (e : jsstring) : M A := λ w, (Throws e, w).

(** [try { body } catch (error) { handler(error) }] *)
Definition try_catch {A} (body : M A) (handler : jsstring → M A) : M A :=
  λ w, match body w with
       | (Returns a, w') => (Returns a, w')
       | (Throws e, w') => handler e w'
       end.

(** An awaited call: it is recorded, then it returns or throws. *)
Definition call {A} (c : Call) (r : outcome A) : M A :=
  λ w, (r, MkWorld (messageContexts w) (lastBotMessages w) (logs w) (gifs w)
                   (calls w ++ [c])).

Definition get_world : M World := λ w, (Returns w, w).

Definition set_messageContexts (k : Z) (v : list Turn) : M () :=
  λ w, (Returns (), MkWorld (<[k := v]> (messageContexts w)) (lastBotMessages w)
                            (logs w) (gifs w) (calls w)).

Definition set_lastBotMessages (k : Z) (v : list Z) : M () :=
  λ w, (Returns (), MkWorld (messageContexts w) (<[k := v]> (lastBotMessages w))
                            (logs w) (gifs w) (calls w)).

(** [falsy] for a numeric id that may be missing: [undefined] and [0]. *)
Definition falsy_id (i : option Z) : bool :=
  match i with
  | None => true
  | Some n => n =? 0
  end.

(** [`${x}`] for an optional number *)
Definition show_id (i : option Z) : jsstring :=
  match i with
  | None => lit "undefined"
  | Some n => string_of_number n
  end.

(** [`${x}`] for an optional string *)
Definition show_str (s : option jsstring) : jsstring := default (lit "undefined") s.

(** *** The handlers

    The [setTimeout] pauses of [handleMessage] change no state and are left
    out. *)

Definition logEvent (event type : jsstring) (text : value) (userId : option Z)
  : M () :=
  λ w, (Returns (), MkWorld (messageContexts w) (lastBotMessages w)
                            (logs w ++ [MkLog event type text userId]) (gifs w)
                            (calls w)).

Definition handleError (message error : jsstring) (userId : option Z) : M () :=
  logEvent (lit "ERROR") (lit "SYSTEM") (VStr (message ++ lit ": " ++ error)) userId.

(** [/%Reaction\(([^)]+)\)%/] *)
Definition reactionPattern : regexp :=
  chars "%Reaction(" ++ [Open; Plus (NotChr 41); Close] ++ chars ")%".

(** [/%sendGif%/] *)
Definition sendGifPattern : regexp := chars "%sendGif%".

Definition extractCommand (response : jsstring) (pattern : regexp)
  : value * jsstring :=
  match str_match response pattern with
  | Some m => (get m 1, trim (JS.replace (matched m) [] response))
  | None => (VNull, response)
  end.

Definition handleReaction (env : Env) (ctx : Context) (reaction : value)
  : M bool :=
  if negb (truthy reaction) || falsy_id (message_id ctx) then mret false
  else
    try_catch
      (chat ← (match chat_id ctx with
               | Some c => mret c
               | None => throw (no_property (engine env))
               end);
       call (SetMessageReaction chat (default 0 (message_id ctx)) reaction)
            (setMessageReaction env);;
       logEvent (lit "REACTION") (lit "SYSTEM") reaction (from_id ctx);;
       mret true)
      (λ error,
         handleError (lit "Reaction failed") error (from_id ctx);;
         mret false).

Definition handleGifCommand (env : Env) (ctx : Context) : M bool :=
  try_catch
    (w ← get_world;
     match gifs w !! (random_row env `mod` length (gifs w))%nat with
     | None => mret false
     | Some row =>
         call (ReplyWithAnimation (base64 row)
                 (lit "gif_" ++ hash row ++ lit ".mp4"))
              (replyWithAnimation env);;
         logEvent (lit "GIF_SENT") (lit "SYSTEM") (VStr (hash row)) (from_id ctx);;
         mret true
     end)
    (λ error,
       handleError (lit "GIF send failed") error (from_id ctx);;
       mret false).

Section WithProcessEnv.
Variable process_env : ProcessEnv.

Definition getAIResponse (env : Env) (prompt : jsstring) (context : list Turn)
    (user_id : option Z) : M value :=
  try_catch
    (let messages :=
       [MkTurn system (default [] (SYSTEM_PROMPT process_env))]
       ++ slice (-8) context ++ [MkTurn user prompt] in
     result ← call (Post messages) (backend env messages);
     match result with
     | Scalar result =>
         (if truthy result
          then logEvent (lit "RESPONSE") (lit "text") result user_id
          else mret ());;
         mret (or_else result VNull)
     | Composite =>
         (* truthy, and [logEvent] throws: the driver cannot bind it *)
         throw (not_bindable (engine env))
     end)
    (λ error,
       handleError (lit "AI request failed") error None;;
       mret VNull).

(** [INSERT OR IGNORE INTO gifs]: a row whose primary key [(hash, url)] is
    already there is dropped. *)
Definition insert_or_ignore (row : GifRow) : M () :=
  λ w,
    let present :=
      existsb (λ r, bool_decide (hash r = hash row ∧ url r = url row)) (gifs w) in
    (Returns (),
     MkWorld (messageContexts w) (lastBotMessages w) (logs w)
             (if present then gifs w else gifs w ++ [row]) (calls w)).

Definition handleGifUpload (env : Env) (ctx : Context) : M () :=
  try_catch
    (file ← call GetFile (getFile env);
     match file_path file with
     | None | Some [] => mret ()
     | Some path =>
         w ← get_world;
         if existsb (λ r, bool_decide (hash r = file_unique_id file)) (gifs w)
         then mret ()
         else
           let fileUrl :=
             lit "https://api.telegram.org/file/bot"
             ++ show_str (TELEGRAM_TOKEN process_env) ++ lit "/" ++ path in
           data ← call (Download fileUrl) (download env);
           insert_or_ignore
             (MkGif data (file_unique_id file)
                (lit "t.me/" ++ show_id (chat_id ctx) ++ lit "/"
                 ++ show_id (message_id ctx)));;
           logEvent (lit "GIF_SAVED") (lit "SYSTEM")
             (VStr (file_unique_id file)) (from_id ctx)
     end)
    (λ error, handleError (lit "GIF upload failed") error (from_id ctx)).

(** [/[_*[\]()~`>#+\-=|{}.!]/g] replaced by ['\\$&']. *)
Definition reserved : jsstring := lit "_*[]()~`>#+-=|{}.!".

Definition escape (s : jsstring) : jsstring :=
  c ← s; if bool_decide (c ∈ reserved) then [92%N; c] else [c].

Definition handleMessage (env : Env) (ctx : Context) (text : jsstring)
    (isReplyToBot : bool) : M () :=
  if falsy_id (chat_id ctx) || falsy_id (from_id ctx) then mret ()
  else
    let userId := from_id ctx in
    let chatId := default 0 (chat_id ctx) in
    w0 ← get_world;
    let context :=
      if isReplyToBot then default [] (messageContexts w0 !! chatId) else [] in
    let userName :=
      join (lit " ")
        (filter (λ s, s ≠ []) (omap id [first_name ctx; last_name ctx])) in
    try_catch
      (call (SendChatAction chatId (lit "typing")) (typing_before env);;
       aiResponse ← getAIResponse env (userName ++ lit ": " ++ text) context
                      (from_id ctx);
       if negb (truthy aiResponse) then mret ()
       else
         response ← (match aiResponse with
                     | VStr s => mret s
                     | _ => throw (not_a_function (engine env))
                     end);
         let '(reaction, cleanResponse) := extractCommand response reactionPattern in
         let '(gifCommand, finalResponse) :=
           extractCommand cleanResponse sendGifPattern in
         handleReaction env ctx reaction;;
         (if truthy gifCommand then handleGifCommand env ctx;; mret ()
          else mret ());;
         if bool_decide (finalResponse = []) then mret ()
         else
           call (SendChatAction chatId (lit "typing")) (typing_after env);;
           (if isReplyToBot
            then set_messageContexts chatId
                   (slice (-18) context
                    ++ [MkTurn user text; MkTurn assistant finalResponse])
            else mret ());;
           sentMessage ← call (Reply (escape finalResponse) (message_id ctx))
                           (reply env);
           if isReplyToBot && negb (truthy gifCommand)
           then
             w ← get_world;
             let current := default [] (lastBotMessages w !! chatId) in
             set_lastBotMessages chatId (slice (-9) current ++ [sentMessage])
           else mret ())
      (λ error, handleError (lit "Message processing failed") error userId).

(** Units of work handled one after the other, as the chat queue runs
    them. *)
Definition handleMessages (units : list (Env * Context * jsstring * bool))
    (w : World) : World :=
  foldl (λ w '(env, ctx, text, isReplyToBot),
           (handleMessage env ctx text isReplyToBot w).2) w units.

End WithProcessEnv.

(** The backend gave nothing to reply with: the request failed, or the
    content read from the response is not a non-empty string. *)
Definition no_usable_response (r : outcome json) : Prop :=
  match r with
  | Throws _ => True
  | Returns (Scalar (VStr s)) => s = []
  | Returns _ => True
  end.

(** Calls that put something into the chat. *)
Definition is_send (c : Call) : bool :=
  match c with
  | Reply _ _ | ReplyWithAnimation _ _ | SetMessageReaction _ _ _ => true
  | _ => false
  end.

Definition is_animation (c : Call) : bool :=
  match c with
  | ReplyWithAnimation _ _ => true
  | _ => false
  end.

(** A chat, a sender and a cooperative outside world, for the examples. *)
Definition sample_ctx (message : Z) : Context :=
  MkContext (Some 7) (Some 42) (Some (lit "Ann")) None (Some message).

(** Error texts of the kind an engine writes, for the examples. *)
Definition sample_engine : Engine :=
  MkEngine (lit "undefined is not an object (evaluating 'ctx.chat.id')")
           (lit "response.match is not a function")
           (lit "Binding expected string, TypedArray, boolean, number or null").

Definition sample_env (answer : jsstring) : Env :=
  MkEnv (Returns ()) (λ _, Returns (Scalar (VStr answer))) (Returns ()) 0
        (Returns ()) (Returns ()) (Returns 500)
        (Returns (MkFile (Some (lit "animations/file_1.mp4")) (lit "AgADBAAD")))
        (Returns (lit "AAAAIGZ0eXA=")) sample_engine.

Definition sample_process_env : ProcessEnv :=
  MkProcessEnv (Some (lit "You are Gado.")) (Some (lit "123:abc")).

Definition empty_world : World := MkWorld ∅ ∅ [] [] [].

(** The rows an upload adds to a table: the fetched file under its hash and
    origin, when the file has a path, the hash is new and the download
    returns. *)
Definition newly_stored (env : Env) (origin : jsstring) (table : list GifRow)
  : list GifRow :=
  match getFile env with
  | Returns file =>
      match file_path file with
      | Some (_ :: _) =>
          if existsb (λ r, bool_decide (hash r = file_unique_id file)) table
          then []
          else match download env with
               | Returns data => [MkGif data (file_unique_id file) origin]
               | Throws _ => []
               end
      | _ => []
      end
  | Throws _ => []
  end.

(** The call that delivers the visible text. *)
Definition is_reply (c : Call) : bool :=
  match c with
  | Reply _ _ => true
  | _ => false
  end.

(** The same environment with another answer to [setMessageReaction]. *)
Definition with_setMessageReaction (r : outcome ()) (env : Env) : Env :=
  MkEnv (typing_before env) (backend env) r (random_row env)
        (replyWithAnimation env) (typing_after env) (reply env) (getFile env)
        (download env) (engine env).

End Ai.

(** ** [getAIPicture] of [ai.ts] *)

Module Picture.
Import JS.

(** *** [encodeURIComponent] *)

(** The characters that are never escaped: ASCII letters, digits and
    [_ - . ! ~ * ' ( )]. *)
Definition unescaped (c : N) : bool :=
  ((65 <=? c) && (c <=? 90) || (97 <=? c) && (c <=? 122)
   || (48 <=? c) && (c <=? 57)
   || existsb (N.eqb c) [95; 45; 46; 33; 126; 42; 39; 40; 41])%N.

Definition hex_digit (n : N) : N := (if n <? 10 then 48 + n else 55 + n)%N.

(** [%XX], upper case *)
Definition percent (octet : N) : jsstring :=
  [37%N; hex_digit (octet / 16); hex_digit (octet mod 16)].

(** The UTF-8 octets of a code point. *)
Definition utf8 (cp : N) : list N :=
  (if cp <? 128 then [cp]
   else if cp <? 2048 then [192 + cp / 64; 128 + cp mod 64]
   else if cp <? 65536 then
     [224 + cp / 4096; 128 + (cp / 64) mod 64; 128 + cp mod 64]
   else [240 + cp / 262144; 128 + (cp / 4096) mod 64; 128 + (cp / 64) mod 64;
         128 + cp mod 64])%N.

Definition is_leading (c : N) : bool := ((55296 <=? c) && (c <=? 56319))%N.
Definition is_trailing (c : N) : bool := ((56320 <=? c) && (c <=? 57343))%N.

(** [malformed] is the message of the URIError that an unpaired surrogate
    raises; its text is the engine's own. *)
Fixpoint encodeURIComponent (malformed : jsstring) (s : jsstring)
  : Ai.outcome jsstring :=
  let escaped (cp : N) (rest : Ai.outcome jsstring) :=
    match rest with
    | Ai.Returns r => Ai.Returns ((utf8 cp ≫= percent) ++ r)
    | Ai.Throws e => Ai.Throws e
    end in
  match s with
  | [] => Ai.Returns []
  | c :: s' =>
      if unescaped c then
        match encodeURIComponent malformed s' with
        | Ai.Returns r => Ai.Returns (c :: r)
        | Ai.Throws e => Ai.Throws e
        end
      else if is_trailing c then Ai.Throws malformed
      else if is_leading c then
        match s' with
        | d :: s'' =>
            if is_trailing d
            then escaped ((c - 55296) * 1024 + (d - 56320) + 65536)%N
                         (encodeURIComponent malformed s'')
            else Ai.Throws malformed
        | [] => Ai.Throws malformed
        end
      else escaped c (encodeURIComponent malformed s')
  end.

(** *** The handler *)

Inductive Call :=
| ReplyWithChatAction (action : jsstring)
| Get (url : jsstring)
| ReplyWithPhoto (data filename : jsstring) (reply_to_message_id : option Z).

(** The state [getAIPicture] works on: the state of [ai.ts], the calls it
    makes itself, the intervals that are running, and its variable
    [loadingInterval]. *)
Record World := MkWorld {
  ai : Ai.World;
  requests : list Call;
  intervals : nat;
  loadingInterval : option ()
}.

(** The context, with [ctx.message?.document?.file_unique_id]. *)
Record Context := MkContext {
  base : Ai.Context;
  document : option jsstring
}.

(** The answers of the outside world, the random number scaled by 1000 and
    floored, the answers to the chat actions of the interval that fires
    while the two calls are awaited, and the message of the engine's
    URIError. *)
Record Env := MkEnv {
  random : nat;
  get : Ai.outcome (option jsstring);
  during_get : list (Ai.outcome ());
  replyWithPhoto : Ai.outcome ();
  during_reply : list (Ai.outcome ());
  URIError : jsstring
}.

Definition M (A : Type) : Type := World → Ai.outcome A * World.

Global Instance M_ret : MRet M := λ A a w, (Ai.Returns a, w).

Global Instance M_bind : MBind M := λ A B f m w,
  match m w with
  | (Ai.Returns a, w') => f a w'
  | (Ai.Throws e, w') => (Ai.Throws e, w')
  end.

Definition throw {A} (e : jsstring) : M A := λ w, (Ai.Throws e, w).

Definition try_catch {A} (body : M A) (handler : jsstring → M A) : M A :=
  λ w, match body w with
       | (Ai.Returns a, w') => (Ai.Returns a, w')
       | (Ai.Throws e, w') => handler e w'
       end.

(** [try { body } finally { cleanup }] *)
Definition try_finally {A} (body : M A) (cleanup : M ()) : M A :=
  λ w, match body w with
       | (r, w') =>
           match cleanup w' with
           | (Ai.Returns _, w'') => (r, w'')
           | (Ai.Throws e, w'') => (Ai.Throws e, w'')
           end
       end.

(** A function of [ai.ts] run on its part of the state. *)
Definition lift {A} (m : Ai.M A) : M A :=
  λ w, let '(r, a) := m (ai w) in
       (r, MkWorld a (requests w) (intervals w) (loadingInterval w)).

Definition of_outcome {A} (r : Ai.outcome A) : M A := λ w, (r, w).

Definition call {A} (c : Call) (r : Ai.outcome A) : M A :=
  λ w, (r, MkWorld (ai w) (requests w ++ [c]) (intervals w) (loadingInterval w)).

Definition setInterval : M () :=
  λ w, (Ai.Returns (),
        MkWorld (ai w) (requests w) (S (intervals w)) (loadingInterval w)).

Definition clearInterval : M () :=
  λ w, (Ai.Returns (),
        MkWorld (ai w) (requests w) (pred (intervals w)) (loadingInterval w)).

Definition set_loadingInterval (v : option ()) : M () :=
  λ w, (Ai.Returns (), MkWorld (ai w) (requests w) (intervals w) v).

Definition get_loadingInterval : M (option ()) :=
  λ w, (Ai.Returns (loadingInterval w), w).

(** The callback of the interval:
    [ctx.replyWithChatAction('upload_photo').catch(() => {})]. *)
Definition loading (answer : Ai.outcome ()) : M () :=
  try_catch (call (ReplyWithChatAction (lit "upload_photo")) answer)
            (λ _, mret ()).

(** An awaited call during which the interval fires. *)
Definition await {A} (c : Call) (r : Ai.outcome A)
    (fired : list (Ai.outcome ())) : M A :=
  λ w, let w' := foldl (λ w answer, (loading answer w).2)
                       (call c r w).2 fired in
       (r, w').

Definition getAIPicture (env : Env) (ctx : Context) (prompt : jsstring)
  : M jsstring :=
  set_loadingInterval None;;
  try_finally
    (try_catch
       (setInterval;;
        set_loadingInterval (Some ());;
        encoded ← of_outcome (encodeURIComponent (URIError env) prompt);
        let imageUrl :=
          lit "https://fluxwebui.com/generate/" ++ encoded
          ++ lit "?width=576&height=1024&seed="
          ++ string_of_number (Z.of_nat (random env `mod` 1000))
          ++ lit "&model=flux&nologo=true&nofeed=true" in
        data ← await (Get imageUrl) (get env) (during_get env);
        match data with
        | None => throw (lit "Empty image response")
        | Some data =>
            await (ReplyWithPhoto data (lit "image.jpg")
                     (Ai.message_id (base ctx)))
                  (replyWithPhoto env) (during_reply env);;
            lift (Ai.logEvent (lit "RESPONSE") (lit "image")
                    (or_else (from_option VStr VUndefined (document ctx))
                             (VStr (lit "unknown")))
                    (Ai.from_id (base ctx)));;
            mret data
        end)
       (λ error,
          lift (Ai.handleError (lit "Image generation failed") error
                  (Ai.from_id (base ctx)));;
          throw error))
    (v ← get_loadingInterval;
     match v : option () with
     | Some _ => clearInterval
     | None => mret ()
     end).

End Picture.

(** ** [index.ts] *)

Module Index.
Import JS.

(** The run of an async function, cut at its suspension points. *)
Inductive job :=
| Return
| Throw (e : jsstring)
| Await (k : job).

(** [handler: () => Promise<void>]; [tid] names the unit of work in the
    trace. *)
Record handler := MkHandler { tid : nat; body : job }.

Inductive pstate :=
| Pending
| Fulfilled
| Rejected (e : jsstring).

(** Where the callback of a [then] stands. *)
Inductive reaction :=
| NotCalled (h : handler)
| Running (t : nat) (k : job)
| Done (r : pstate).

(** The promises that [queueMessage] builds. *)
Inductive promise :=
| Resolve                                    (* Promise.resolve() *)
| Then (p : promise) (r : reaction)          (* p.then(handler) *)
| Catch (p : promise) (userId : option Z) (r : option pstate).
    (* p.catch(e => handleError('Queue error', e, userId)) *)

(** [then] passes a rejection on without calling its callback; [catch]
    passes a fulfilment on and settles with the result of its callback. *)
Fixpoint state (p : promise) : pstate :=
  match p with
  | Resolve => Fulfilled
  | Then p r =>
      match state p with
      | Fulfilled => match r with Done s => s | _ => Pending end
      | s => s
      end
  | Catch p _ r =>
      match state p with
      | Rejected _ => default Pending r
      | s => s
      end
  end.

Inductive event :=
| Started (t : nat)
| Resumed (t : nat)
| Returned (t : nat)
| Failed (t : nat) (e : jsstring)
| Caught (e : jsstring).

Definition tick_reaction (r : reaction) : option (reaction * event) :=
  match r with
  | NotCalled h => Some (Running (tid h) (body h), Started (tid h))
  | Running t (Await k) => Some (Running t k, Resumed t)
  | Running t Return => Some (Done Fulfilled, Returned t)
  | Running t (Throw e) => Some (Done (Rejected e), Failed t e)
  | Done _ => None
  end.

(** The next job of the chain that ends in [p], if one is ready to run. *)
Fixpoint tick (p : promise) (w : Ai.World) : option (promise * Ai.World * event) :=
  match p with
  | Resolve => None
  | Then p r =>
      match state p with
      | Pending => '(p', w', ev) ← tick p w; Some (Then p' r, w', ev)
      | Fulfilled => '(r', ev) ← tick_reaction r; Some (Then p r', w, ev)
      | Rejected _ => None
      end
  | Catch p userId r =>
      match state p with
      | Pending => '(p', w', ev) ← tick p w; Some (Catch p' userId r, w', ev)
      | Fulfilled => None
      | Rejected e =>
          match r with
          | Some _ => None
          | None =>
              match Ai.handleError (lit "Queue error") e userId w with
              | (Ai.Returns _, w') => Some (Catch p userId (Some Fulfilled), w', Caught e)
              | (Ai.Throws e', w') => Some (Catch p userId (Some (Rejected e')), w', Caught e)
              end
          end
      end
  end.

Record State := MkState {
  chatQueues : gmap Z promise;
  world : Ai.World;
  trace : list (Z * event)
}.

Definition queueMessage (chatId : Z) (userId : option Z) (h : handler)
    (st : State) : State :=
  let previous := default Resolve (chatQueues st !! chatId) in
  let current := Catch (Then previous (NotCalled h)) userId None in
  MkState (<[chatId := current]> (chatQueues st)) (world st) (trace st).

(** The event loop runs the next job of the lane [chatId]. *)
Definition run_tick (chatId : Z) (st : State) : State :=
  match chatQueues st !! chatId with
  | None => st
  | Some p =>
      match tick p (world st) with
      | None => st
      | Some (p', w', ev) =>
          MkState (<[chatId := p']> (chatQueues st)) w' (trace st ++ [(chatId, ev)])
      end
  end.

(** What happens next is not up to the program: a message arrives, or the
    event loop picks a lane. *)
Inductive action :=
| Enqueue (chatId : Z) (userId : option Z) (h : handler)
| Tick (chatId : Z).

Definition step (st : State) (a : action) : State :=
  match a with
  | Enqueue chatId userId h => queueMessage chatId userId h st
  | Tick chatId => run_tick chatId st
  end.

Definition run (sched : list action) (st : State) : State := foldl step st sched.

Definition init (w : Ai.World) : State := MkState ∅ w [].

(** *** What a lane is expected to do *)

Fixpoint job_events (t : nat) (k : job) : list event :=
  match k with
  | Return => [Returned t]
  | Throw e => [Failed t e]
  | Await k => Resumed t :: job_events t k
  end.

Fixpoint job_final (k : job) : pstate :=
  match k with
  | Return => Fulfilled
  | Throw e => Rejected e
  | Await k => job_final k
  end.

(** One unit of work run from its start to its end with nothing in between:
    the handler is called, resumes after each await, and returns, or throws
    and has its error caught. *)
Definition script (h : handler) : list event :=
  Started (tid h) :: job_events (tid h) (body h)
  ++ match job_final (body h) with
     | Rejected e => [Caught e]
     | _ => []
     end.

(** The events of the lane of one chat, in the order they happened. *)
Definition lane (chatId : Z) (tr : list (Z * event)) : list event :=
  omap (λ '(c, ev), if bool_decide (c = chatId) then Some ev else None) tr.

(** The handlers queued for one chat, in the order of the calls. *)
Definition enqueued (chatId : Z) (sched : list action) : list handler :=
  omap (λ a, match a with
             | Enqueue c _ h => if bool_decide (c = chatId) then Some h else None
             | Tick _ => None
             end) sched.

(** The actions that concern one chat. *)
Definition on_chat (chatId : Z) (a : action) : bool :=
  match a with
  | Enqueue c _ _ | Tick c => bool_decide (c = chatId)
  end.

(** The errors caught by the queue, in the order they were caught. *)
Definition caught (tr : list (Z * event)) : list jsstring :=
  omap (λ '(_, ev), match ev with Caught e => Some e | _ => None end) tr.

(** The promise a lane waits on. *)
Definition chain (chatId : Z) (st : State) : promise :=
  default Resolve (chatQueues st !! chatId).

(** How a chain settles in the end, and the events still to come from it. *)
Definition reaction_final (r : reaction) : pstate :=
  match r with
  | NotCalled h => job_final (body h)
  | Running _ k => job_final k
  | Done s => s
  end.

Definition reaction_events (r : reaction) : list event :=
  match r with
  | NotCalled h => Started (tid h) :: job_events (tid h) (body h)
  | Running t k => job_events t k
  | Done _ => []
  end.

Fixpoint final (p : promise) : pstate :=
  match p with
  | Resolve => Fulfilled
  | Then p r =>
      match final p with
      | Fulfilled => reaction_final r
      | s => s
      end
  | Catch p _ r =>
      match final p with
      | Rejected _ => default Fulfilled r
      | s => s
      end
  end.

Fixpoint remaining (p : promise) : list event :=
  match p with
  | Resolve => []
  | Then p r =>
      remaining p
      ++ match final p with
         | Fulfilled => reaction_events r
         | _ => []
         end
  | Catch p _ r =>
      remaining p
      ++ match final p, r with
         | Rejected e, None => [Caught e]
         | _, _ => []
         end
  end.

End Index.

(** * Properties *)

(** ** Strings *)

Section StringFacts.
Import JS.

Lemma startsWith_spec (pat s : jsstring) :
  startsWith pat s = true ↔ ∃ r, s = pat ++ r.
Proof.
  revert s; induction pat as [|c pat IH]; intros s; simpl.
  - split; eauto.
  - destruct s as [|d s]; simpl.
    + split; [done | intros [r Hr]; done].
    + rewrite andb_true_iff, N.eqb_eq, IH. split.
      * intros [-> [r ->]]. eauto.
      * intros [r Hr]. injection Hr as -> ->. eauto.
Qed.

Lemma replace_unfold (pat rep s : jsstring) :
  JS.replace pat rep s =
  if startsWith pat s then rep ++ drop (length pat) s
  else match s with
       | [] => []
       | c :: s' => c :: JS.replace pat rep s'
       end.
Proof. destruct s; reflexivity. Qed.

(** [replace] cuts the occurrence of [pat] that no other one precedes. *)
Lemma replace_first (pat rep pre post : jsstring) :
  (∀ j, (j < length pre)%nat →
        startsWith pat (drop j (pre ++ pat ++ post)) = false) →
  JS.replace pat rep (pre ++ pat ++ post) = pre ++ rep ++ post.
Proof.
  induction pre as [|c pre IH]; intros H.
  - rewrite replace_unfold. simpl.
    assert (startsWith pat (pat ++ post) = true) as ->
      by (apply startsWith_spec; eauto).
    by rewrite drop_app_length.
  - rewrite replace_unfold.
    pose proof (H 0%nat ltac:(simpl; lia)) as H0. simpl in H0.
    change ((c :: pre) ++ pat ++ post) with (c :: pre ++ pat ++ post).
    rewrite H0. change ((c :: pre) ++ rep ++ post) with (c :: pre ++ rep ++ post).
    f_equal.
    apply IH. intros j Hj. apply (H (S j)). simpl; lia.
Qed.

Lemma trimStart_split (s : jsstring) :
  ∃ ws, s = ws ++ trimStart s ∧ forallb isWhiteSpace ws = true.
Proof.
  induction s as [|c s [ws [E Hws]]]; simpl.
  - by exists [].
  - destruct (isWhiteSpace c) eqn:Hc.
    + exists (c :: ws). simpl. rewrite Hc, Hws. split; [congruence | done].
    + by exists [].
Qed.

Lemma trimStart_head (s : jsstring) (c : N) :
  head (trimStart s) = Some c → isWhiteSpace c = false.
Proof.
  induction s as [|d s IH]; simpl; [done |].
  destruct (isWhiteSpace d) eqn:Hd; [done |].
  simpl. by intros [= <-].
Qed.

Lemma trimStart_app_solid (l r : jsstring) (c : N) :
  isWhiteSpace c = false → trimStart (l ++ c :: r) = trimStart l ++ c :: r.
Proof.
  intros Hc. induction l as [|d l IH]; simpl.
  - by rewrite Hc.
  - by destruct (isWhiteSpace d).
Qed.

Lemma trimEnd_split (s : jsstring) :
  ∃ ws, s = trimEnd s ++ ws ∧ forallb isWhiteSpace ws = true.
Proof.
  unfold trimEnd. destruct (trimStart_split (rev s)) as [ws [E Hws]].
  exists (rev ws). split.
  - rewrite <- rev_app_distr, <- E. by rewrite rev_involutive.
  - rewrite forallb_forall in *. intros x Hx. apply Hws. by apply in_rev.
Qed.

Lemma trimEnd_last (s : jsstring) (c : N) :
  last (trimEnd s) = Some c → isWhiteSpace c = false.
Proof.
  unfold trimEnd. intros H. apply (trimStart_head (rev s)).
  destruct (trimStart (rev s)) as [|d t]; [done |].
  simpl in *. by rewrite last_snoc in H.
Qed.

Lemma trimEnd_cons_solid (c : N) (s : jsstring) :
  isWhiteSpace c = false → trimEnd (c :: s) = c :: trimEnd s.
Proof.
  intros Hc. unfold trimEnd. simpl.
  rewrite trimStart_app_solid by done.
  by rewrite rev_app_distr.
Qed.

(** [trim] strips white space, and only white space, from both ends. *)
Lemma trim_spec (s : jsstring) :
  (∃ lead trail, s = lead ++ trim s ++ trail
                 ∧ forallb isWhiteSpace lead = true
                 ∧ forallb isWhiteSpace trail = true)
  ∧ (∀ c, head (trim s) = Some c → isWhiteSpace c = false)
  ∧ (∀ c, last (trim s) = Some c → isWhiteSpace c = false).
Proof.
  unfold trim. split; [| split].
  - destruct (trimStart_split s) as [lead [E1 H1]].
    destruct (trimEnd_split (trimStart s)) as [trail [E2 H2]].
    exists lead, trail. by rewrite <- E2, <- E1.
  - intros c. pose proof (trimStart_head s) as H.
    destruct (trimStart s) as [|d t]; [done |].
    rewrite trimEnd_cons_solid by (by apply H). simpl. intros [= <-]. by apply H.
  - apply trimEnd_last.
Qed.

Lemma slice_neg_spec {A} (n : nat) (l : list A) :
  slice (- Z.of_nat (S n)) l = drop (length l - S n) l.
Proof.
  unfold slice. replace (_ <? 0) with true by (symmetry; apply Z.ltb_lt; lia).
  f_equal. lia.
Qed.

Lemma slice_neg_length {A} (n : nat) (l : list A) :
  length (slice (- Z.of_nat (S n)) l) = (length l `min` S n)%nat.
Proof. rewrite slice_neg_spec, length_drop. lia. Qed.

End StringFacts.

(** ** The matcher *)

Section RegExpFacts.
Import JS RegExp.

Lemma match_here_plus (a : cclass) (p : regexp) (s : jsstring) (st : mstate) :
  match_here (Plus a :: p) s st =
  match s with
  | c :: s' =>
      if accepts a c then
        match match_here (Plus a :: p) s' (advance c st) with
        | Some r => Some r
        | None => match_here p s' (advance c st)
        end
      else None
  | [] => None
  end.
Proof. destruct s; reflexivity. Qed.

(** What the matcher accepts is a text of the pattern, at the start of the
    input. *)
Lemma match_here_sound (p : regexp) : ∀ s st st',
  match_here p s st = Some st' →
  ∃ w rest, s = w ++ rest ∧ whole st' = whole st ++ w ∧ lang p w.
Proof.
  induction p as [|i p IH]; intros s st st' H.
  - injection H as <-. exists [], s. rewrite app_nil_r. eauto using lang.
  - destruct i as [a|a| |].
    + destruct s as [|c s]; simpl in H; [done |].
      destruct (accepts a c) eqn:Ha; [| done].
      destruct (IH _ _ _ H) as (w & rest & -> & Hw & Hl).
      exists (c :: w), rest. simpl in Hw. rewrite Hw, <- app_assoc.
      eauto using lang.
    + revert st H. induction s as [|c s IHs]; intros st H;
        rewrite match_here_plus in H; [done |].
      destruct (accepts a c) eqn:Ha; [| done].
      destruct (match_here (Plus a :: p) s (advance c st)) as [r|] eqn:Hg.
      * injection H as ->.
        destruct (IHs _ Hg) as (w & rest & -> & Hw & Hl).
        exists (c :: w), rest. simpl in Hw. rewrite Hw, <- app_assoc.
        eauto using lang.
      * destruct (IH _ _ _ H) as (w & rest & -> & Hw & Hl).
        exists (c :: w), rest. simpl in Hw. rewrite Hw, <- app_assoc.
        eauto using lang.
    + destruct (IH _ _ _ H) as (w & rest & -> & Hw & Hl).
      exists w, rest. eauto using lang.
    + destruct (IH _ _ _ H) as (w & rest & -> & Hw & Hl).
      exists w, rest. eauto using lang.
Qed.

(** Backtracking loses nothing: where a text of the pattern starts, the
    matcher finds a match. *)
Lemma match_here_complete (p : regexp) (w : jsstring) :
  lang p w → ∀ rest st, is_Some (match_here p (w ++ rest) st).
Proof.
  induction 1 as [|a c p w Ha _ IH|a c p w Ha _ IH|a c p w Ha _ IH
                  |p w _ IH|p w _ IH]; intros rest st.
  - by eexists.
  - simpl. rewrite Ha. apply IH.
  - change ((c :: w) ++ rest) with (c :: w ++ rest).
    rewrite match_here_plus, Ha.
    destruct (IH rest (advance c st)) as [r ->]. by eexists.
  - change ((c :: w) ++ rest) with (c :: w ++ rest).
    rewrite match_here_plus, Ha.
    destruct (match_here (Plus a :: p) _ _); [by eexists | apply IH].
  - apply IH.
  - apply IH.
Qed.

Lemma exec_from_unfold (p : regexp) (s : jsstring) (i : nat) :
  exec_from p s i =
  match match_here p s mstart with
  | Some st => Some (MatchArray i (whole st) (caps st))
  | None =>
      match s with
      | [] => None
      | _ :: s' => exec_from p s' (S i)
      end
  end.
Proof. destruct s; reflexivity. Qed.

(** [exec] reports the leftmost position at which the pattern matches. *)
Lemma exec_from_Some (p : regexp) : ∀ s i m,
  exec_from p s i = Some m →
  ∃ pre rest st,
    s = pre ++ rest ∧ index m = (i + length pre)%nat
    ∧ match_here p rest mstart = Some st
    ∧ matched m = whole st ∧ groups m = caps st
    ∧ ∀ j, (j < length pre)%nat → match_here p (drop j s) mstart = None.
Proof.
  induction s as [|c s IH]; intros i m H; rewrite exec_from_unfold in H.
  - destruct (match_here p [] mstart) as [st|] eqn:E; [| done].
    injection H as <-. exists [], [], st. simpl.
    repeat split; auto with lia.
  - destruct (match_here p (c :: s) mstart) as [st|] eqn:E.
    + injection H as <-. exists [], (c :: s), st. simpl.
      repeat split; auto with lia.
    + destruct (IH _ _ H) as (pre & rest & st & -> & Hi & Hm & Hw & Hg & Hleft).
      exists (c :: pre), rest, st. simpl. repeat split; auto with lia.
      intros [|j] Hj; [done |]. apply Hleft. lia.
Qed.

Lemma exec_from_None (p : regexp) : ∀ s i,
  exec_from p s i = None → ∀ j, match_here p (drop j s) mstart = None.
Proof.
  induction s as [|c s IH]; intros i H j; rewrite exec_from_unfold in H.
  - destruct (match_here p [] mstart) eqn:E; [done |]. by rewrite drop_nil.
  - destruct (match_here p (c :: s) mstart) eqn:E; [done |].
    destruct j as [|j]; [done |]. simpl. eauto.
Qed.

(** [s.match(p)] is [null] exactly when no stretch of [s] is a text of [p]. *)
Lemma str_match_None (s : jsstring) (p : regexp) :
  str_match s p = None ↔ ¬ occurs p s.
Proof.
  unfold str_match. split.
  - intros H (pre & w & post & -> & Hl).
    pose proof (exec_from_None _ _ _ H (length pre)) as Hn.
    rewrite drop_app_length in Hn.
    destruct (match_here_complete _ _ Hl post mstart) as [st Hst]. congruence.
  - intros Hno. destruct (exec_from p s 0) as [m|] eqn:E; [| done].
    destruct (exec_from_Some _ _ _ _ E) as (pre & rest & st & -> & _ & Hm & _).
    destruct (match_here_sound _ _ _ _ Hm) as (w & post & -> & _ & Hl).
    exfalso. apply Hno. by exists pre, w, post.
Qed.

(** The match array of [s.match(p)]: [m[0]] is a text of [p] that sits at
    [m.index], no match starts further left, and no copy of [m[0]] does
    either. *)
Lemma str_match_Some (s : jsstring) (p : regexp) (m : match_array) :
  str_match s p = Some m →
  ∃ pre post,
    s = pre ++ matched m ++ post ∧ length pre = index m
    ∧ lang p (matched m)
    ∧ (∀ j, (j < index m)%nat → match_here p (drop j s) mstart = None)
    ∧ (∀ j, (j < index m)%nat → startsWith (matched m) (drop j s) = false).
Proof.
  intros H. destruct (exec_from_Some _ _ _ _ H)
    as (pre & rest & st & -> & Hi & Hm & Hw & _ & Hleft).
  destruct (match_here_sound _ _ _ _ Hm) as (w & post & -> & Hw' & Hl).
  simpl in Hw'. rewrite <- Hw in Hw'. subst w. simpl in Hi.
  exists pre, post. rewrite Hi. repeat split; auto.
  intros j Hj.
  destruct (startsWith (matched m) (drop j (pre ++ matched m ++ post))) eqn:E;
    [| done].
  apply startsWith_spec in E as [r Hr].
  pose proof (Hleft j Hj) as Hn. rewrite Hr in Hn.
  destruct (match_here_complete _ _ Hl r mstart) as [? ?]. congruence.
Qed.

End RegExpFacts.

(** ** [extractCommand] *)

Section ExtractFacts.
Import JS RegExp Ai.

Lemma advance_all_fields (w : jsstring) : ∀ st,
  whole (advance_all w st) = whole st ++ w
  ∧ cur (advance_all w st) = (λ g, g ++ w) <$> cur st
  ∧ caps (advance_all w st) = caps st.
Proof.
  induction w as [|c w IH]; intros st.
  - unfold advance_all; simpl. rewrite app_nil_r.
    repeat split. destruct (cur st); simpl; by rewrite ?app_nil_r.
  - change (advance_all (c :: w) st) with (advance_all w (advance c st)).
    destruct (IH (advance c st)) as (-> & -> & ->). simpl.
    rewrite <- app_assoc. repeat split.
    destruct (cur st); simpl; by rewrite <- ?app_assoc.
Qed.

(** A run of literal characters matches exactly itself. *)
Lemma match_here_lits (cs : jsstring) (p : regexp) : ∀ s st,
  match_here ((One ∘ Chr <$> cs) ++ p) s st =
  if startsWith cs s
  then match_here p (drop (length cs) s) (advance_all cs st)
  else None.
Proof.
  induction cs as [|c cs IH]; intros s st; [done |].
  destruct s as [|d s]; [done |]. simpl.
  rewrite (N.eqb_sym d c). destruct (c =? d)%N eqn:E; [| done].
  apply N.eqb_eq in E as ->. simpl. apply IH.
Qed.

(** [a+] takes a non-empty run of characters of the class. *)
Lemma match_here_plus_inv (a : cclass) (p : regexp) : ∀ s st st',
  match_here (Plus a :: p) s st = Some st' →
  ∃ g rest, g ≠ [] ∧ forallb (accepts a) g = true ∧ s = g ++ rest
            ∧ match_here p rest (advance_all g st) = Some st'.
Proof.
  induction s as [|c s IH]; intros st st' H; rewrite match_here_plus in H;
    [done |].
  destruct (accepts a c) eqn:Ha; [| done].
  destruct (match_here (Plus a :: p) s (advance c st)) as [r|] eqn:Hg.
  - injection H as ->.
    destruct (IH _ _ Hg) as (g & rest & _ & Hall & -> & Hm).
    exists (c :: g), rest. simpl. by rewrite Ha, Hall.
  - exists [c], s. simpl. by rewrite Ha.
Qed.

(** A pattern of the shape [pre(a+)suf] with literal [pre] and [suf]. *)
Lemma tag_match (pre suf : jsstring) (a : cclass) (s : jsstring) (st : mstate) :
  match_here ((One ∘ Chr <$> pre) ++ [Open; Plus a; Close] ++ (One ∘ Chr <$> suf))
             s mstart = Some st →
  ∃ g, g ≠ [] ∧ forallb (accepts a) g = true
       ∧ whole st = pre ++ g ++ suf ∧ caps st = [g].
Proof.
  rewrite match_here_lits.
  destruct (startsWith pre s); [| done].
  change (match_here ([Open; Plus a; Close] ++ ?q) ?t ?u)
    with (match_here (Plus a :: Close :: q) t (open_group u)).
  intros H. apply match_here_plus_inv in H
    as (g & rest & Hne & Hall & _ & H).
  change (match_here (Close :: ?q) ?t ?u)
    with (match_here q t (close_group u)) in H.
  rewrite <- (app_nil_r (_ <$> suf)), match_here_lits in H.
  destruct (startsWith suf rest); [| done].
  injection H as <-. exists g.
  destruct (advance_all_fields suf
              (close_group (advance_all g (open_group (advance_all pre mstart)))))
    as (-> & _ & ->).
  simpl whole; simpl caps.
  destruct (advance_all_fields g (open_group (advance_all pre mstart)))
    as (-> & -> & ->).
  simpl whole; simpl caps.
  destruct (advance_all_fields pre mstart) as (-> & _ & ->).
  simpl. by rewrite <- !app_assoc.
Qed.

(** A match of the reaction tag: the tag text and its one group. *)
Lemma reactionPattern_match (s : jsstring) (st : mstate) :
  match_here reactionPattern s mstart = Some st →
  ∃ symbol,
    symbol ≠ [] ∧ (41%N ∉ symbol)
    ∧ whole st = lit "%Reaction(" ++ symbol ++ lit ")%"
    ∧ caps st = [symbol].
Proof.
  intros H. apply (tag_match (lit "%Reaction(") (lit ")%")) in H
    as (g & Hne & Hall & Hw & Hc).
  exists g. repeat split; auto.
  intros Hin. rewrite forallb_forall in Hall.
  apply list_elem_of_In, Hall in Hin. done.
Qed.

(** A pattern of literal characters closes no group. *)
Lemma lits_caps (cs s : jsstring) (st st' : mstate) :
  match_here (One ∘ Chr <$> cs) s st = Some st' → caps st' = caps st.
Proof.
  rewrite <- (app_nil_r (_ <$> cs)), match_here_lits.
  destruct (startsWith cs s); [| done]. intros [= <-].
  by destruct (advance_all_fields cs st) as (_ & _ & ->).
Qed.

(** The media tag has no group: [match[1]] is never a string. *)
Lemma sendGif_flag (s : jsstring) :
  truthy (extractCommand s sendGifPattern).1 = false.
Proof.
  unfold extractCommand. destruct (str_match s sendGifPattern) as [m|] eqn:E;
    [| done].
  destruct (exec_from_Some _ _ _ _ E) as (_ & rest & st & _ & _ & Hst & _ & Hg & _).
  apply (lits_caps (lit "%sendGif%")) in Hst.
  unfold get. by rewrite Hg, Hst.
Qed.

Lemma extractCommand_Some (response : jsstring) (pattern : regexp)
    (m : match_array) :
  str_match response pattern = Some m →
  ∃ pre post,
    response = pre ++ matched m ++ post ∧ length pre = index m
    ∧ lang pattern (matched m)
    ∧ (∀ j, (j < index m)%nat →
            match_here pattern (drop j response) mstart = None)
    ∧ extractCommand response pattern =
        (from_option VStr VUndefined (groups m !! 0%nat), trim (pre ++ post)).
Proof.
  intros H. destruct (str_match_Some _ _ _ H)
    as (pre & post & E & Hi & Hl & Hleft & Hfirst).
  exists pre, post. repeat split; auto.
  unfold extractCommand. rewrite H.
  assert (get m 1 = from_option VStr VUndefined (groups m !! 0%nat)) as ->.
  { unfold get.
    change ((matched m :: groups m) !! 1%nat) with (groups m !! 0%nat).
    by destruct (groups m !! 0%nat). }
  do 2 f_equal. rewrite E. rewrite (replace_first _ [] pre post); [done |].
  intros j Hj. rewrite <- E. apply Hfirst. lia.
Qed.

Lemma extractCommand_None (response : jsstring) (pattern : regexp) :
  ¬ occurs pattern response → extractCommand response pattern = (VNull, response).
Proof.
  intros H. apply str_match_None in H. unfold extractCommand. by rewrite H.
Qed.

End ExtractFacts.

Section ExtractClaims.
Import JS RegExp Ai.

Lemma occurs_str_match (s : jsstring) (p : regexp) :
  occurs p s ↔ is_Some (str_match s p).
Proof.
  split.
  - intros H. destruct (str_match s p) eqn:E; [by eexists |].
    by apply str_match_None in E.
  - intros [m Hm]. destruct (str_match_Some _ _ _ Hm) as (pre & post & E & _ & Hl & _).
    by exists pre, (matched m), post.
Qed.

(** A reaction tag in the text: the value is the symbol between the
    parentheses of the leftmost tag. *)
Lemma extractCommand_reaction (response : jsstring) :
  occurs reactionPattern response →
  ∃ symbol pre post,
    symbol ≠ [] ∧ (41%N ∉ symbol)
    ∧ response = pre ++ (lit "%Reaction(" ++ symbol ++ lit ")%") ++ post
    ∧ extractCommand response reactionPattern = (VStr symbol, trim (pre ++ post)).
Proof.
  intros [m Hm]%occurs_str_match.
  destruct (extractCommand_Some _ _ _ Hm) as (pre & post & E & _ & _ & _ & Hx).
  destruct (exec_from_Some _ _ _ _ Hm)
    as (_ & rest & st & _ & _ & Hst & Hw & Hg & _).
  apply reactionPattern_match in Hst as (symbol & Hne & Hin & Hw' & Hc).
  exists symbol, pre, post. rewrite Hx, E, Hw, Hw', Hg, Hc. done.
Qed.

(** C6.  When the tag pattern matches somewhere in the text, [extractCommand]
    cuts out exactly the matched text at the leftmost position where a tag
    starts (later tags stay), and returns the first capture group of the
    match; for the reaction pattern that group is the symbol between the
    parentheses.  The text it returns is what is left around the cut less
    white space at its two ends: it neither starts nor ends with white
    space.  In particular
    [extract("hi %Reaction(😀)% there", reactionPattern)] is
    [("😀", "hi  there")], and with white space around the text and a second
    tag behind the first,
    [extract("  hi %Reaction(😀)% there %Reaction(x)% ", reactionPattern)] is
    [("😀", "hi  there %Reaction(x)%")]. *)
Theorem extractCommand_removes_first_tag :
  (∀ response pattern,
     occurs pattern response →
     ∃ m pre post lead remaining trail,
       str_match response pattern = Some m
       ∧ response = pre ++ matched m ++ post
       ∧ lang pattern (matched m)
       ∧ (∀ pre' tag' post',
            response = pre' ++ tag' ++ post' → lang pattern tag' →
            (length pre ≤ length pre')%nat)
       ∧ extractCommand response pattern =
           (from_option VStr VUndefined (groups m !! 0%nat), remaining)
       ∧ pre ++ post = lead ++ remaining ++ trail
       ∧ forallb isWhiteSpace lead = true
       ∧ forallb isWhiteSpace trail = true
       ∧ (∀ c, head remaining = Some c → isWhiteSpace c = false)
       ∧ (∀ c, last remaining = Some c → isWhiteSpace c = false))
  ∧ (∀ response,
       occurs reactionPattern response →
       ∃ symbol pre post lead remaining trail,
         symbol ≠ [] ∧ (41%N ∉ symbol)
         ∧ response = pre ++ (lit "%Reaction(" ++ symbol ++ lit ")%") ++ post
         ∧ extractCommand response reactionPattern = (VStr symbol, remaining)
         ∧ pre ++ post = lead ++ remaining ++ trail
         ∧ forallb isWhiteSpace lead = true
         ∧ forallb isWhiteSpace trail = true
         ∧ (∀ c, head remaining = Some c → isWhiteSpace c = false)
         ∧ (∀ c, last remaining = Some c → isWhiteSpace c = false))
  ∧ extractCommand (lit "hi %Reaction(" ++ [55357; 56832]%N ++ lit ")% there")
      reactionPattern
    = (VStr [55357; 56832]%N, lit "hi  there")
  ∧ extractCommand
      (lit "  hi %Reaction(" ++ [55357; 56832]%N ++ lit ")% there %Reaction(x)% ")
      reactionPattern
    = (VStr [55357; 56832]%N, lit "hi  there %Reaction(x)%").
Proof.
  split; [| split; [| split; reflexivity]].
  - intros response pattern [m Hm]%occurs_str_match.
    destruct (extractCommand_Some _ _ _ Hm) as (pre & post & E & Hi & Hl & Hleft & Hx).
    destruct (trim_spec (pre ++ post)) as ((lead & trail & Et & H1 & H2) & Hh & Hla).
    exists m, pre, post, lead, (trim (pre ++ post)), trail.
    repeat split; auto.
    intros pre' tag' post' E' Hl'.
    destruct (decide (length pre' < length pre)%nat) as [Hlt|]; [| lia].
    rewrite Hi in Hlt. pose proof (Hleft _ Hlt) as Hn.
    rewrite E', drop_app_length in Hn.
    destruct (match_here_complete _ _ Hl' post' mstart) as [? ?]. congruence.
  - intros response (symbol & pre & post & Hne & Hin & E & Hx)%extractCommand_reaction.
    destruct (trim_spec (pre ++ post)) as ((lead & trail & Et & H1 & H2) & Hh & Hla).
    exists symbol, pre, post, lead, (trim (pre ++ post)), trail.
    by repeat split.
Qed.

Lemma extractCommand_removes_first_tag_witness :
  let response := lit "  %Reaction(a)% and %Reaction(b)% " in
  occurs reactionPattern response
  ∧ extractCommand response reactionPattern
    = (VStr (lit "a"), lit "and %Reaction(b)%")
  ∧ ∃ symbol pre post lead remaining trail,
      symbol ≠ [] ∧ (41%N ∉ symbol)
      ∧ response = pre ++ (lit "%Reaction(" ++ symbol ++ lit ")%") ++ post
      ∧ extractCommand response reactionPattern = (VStr symbol, remaining)
      ∧ pre ++ post = lead ++ remaining ++ trail
      ∧ forallb isWhiteSpace lead = true
      ∧ forallb isWhiteSpace trail = true
      ∧ (∀ c, head remaining = Some c → isWhiteSpace c = false)
      ∧ (∀ c, last remaining = Some c → isWhiteSpace c = false).
Proof.
  intros response.
  assert (occurs reactionPattern response) as H
    by (apply occurs_str_match; vm_compute; eauto).
  split; [exact H |]. split; [reflexivity |].
  exact (proj1 (proj2 extractCommand_removes_first_tag) response H).
Defined.

(** C7.  [extractCommand] is a function of the text and the pattern alone
    (it does not live in the state monad of the handlers), and when no
    stretch of the text is a text of the pattern it returns [null] together
    with the very same text.  In particular
    [extract("hello", reactionPattern)] is [(null, "hello")]. *)
Theorem extractCommand_no_tag :
  (∀ response pattern,
     ¬ occurs pattern response →
     extractCommand response pattern = (VNull, response))
  ∧ (∀ response response' pattern pattern',
       response = response' → pattern = pattern' →
       extractCommand response pattern = extractCommand response' pattern')
  ∧ extractCommand (lit "hello") reactionPattern = (VNull, lit "hello").
Proof.
  split; [| split; [| reflexivity]].
  - apply extractCommand_None.
  - by intros ? ? ? ? -> ->.
Qed.

Lemma extractCommand_no_tag_witness :
  let response := lit " %Reaction()% %sendgif% " in
  ¬ occurs sendGifPattern response
  ∧ ¬ occurs reactionPattern response
  ∧ extractCommand response sendGifPattern = (VNull, response)
  ∧ extractCommand response reactionPattern = (VNull, response).
Proof.
  intros response.
  assert (¬ occurs sendGifPattern response) as H1
    by (apply str_match_None; reflexivity).
  assert (¬ occurs reactionPattern response) as H2
    by (apply str_match_None; reflexivity).
  split; [exact H1 |]. split; [exact H2 |]. split.
  - exact (proj1 extractCommand_no_tag response sendGifPattern H1).
  - exact (proj1 extractCommand_no_tag response reactionPattern H2).
Defined.

(** C10.  On a match the text that is left is trimmed as a whole: it is what
    remains of the input without the tag, less white space at its two ends
    only, and it neither starts nor ends with white space, wherever the tag
    stood.  Without a match the text comes back as it is, white space
    included. *)
Theorem extractCommand_trims_whole_text :
  (∀ response pattern,
     occurs pattern response →
     let remaining := (extractCommand response pattern).2 in
     (∃ pre tag post lead trail,
        response = pre ++ tag ++ post ∧ lang pattern tag
        ∧ pre ++ post = lead ++ remaining ++ trail
        ∧ forallb isWhiteSpace lead = true
        ∧ forallb isWhiteSpace trail = true)
     ∧ (∀ c, head remaining = Some c → isWhiteSpace c = false)
     ∧ (∀ c, last remaining = Some c → isWhiteSpace c = false))
  ∧ (∀ response pattern,
       ¬ occurs pattern response →
       (extractCommand response pattern).2 = response)
  ∧ extractCommand (lit "  hi %sendGif% there  ") sendGifPattern
    = (VUndefined, lit "hi  there")
  ∧ extractCommand (lit "  hi there  ") sendGifPattern
    = (VNull, lit "  hi there  ").
Proof.
  split; [| split; [| split; reflexivity]].
  - intros response pattern [m Hm]%occurs_str_match remaining.
    destruct (extractCommand_Some _ _ _ Hm) as (pre & post & E & _ & Hl & _ & Hx).
    subst remaining. rewrite Hx. simpl.
    destruct (trim_spec (pre ++ post)) as ((lead & trail & Et & H1 & H2) & Hh & Hla).
    split; [| by split].
    by exists pre, (matched m), post, lead, trail.
  - intros response pattern H. by rewrite extractCommand_None.
Qed.

Lemma extractCommand_trims_whole_text_witness :
  let response := lit "  %sendGif%  hi there  " in
  occurs sendGifPattern response
  ∧ (extractCommand response sendGifPattern).2 = lit "hi there"
  ∧ (∀ c, head (extractCommand response sendGifPattern).2 = Some c →
          isWhiteSpace c = false)
  ∧ (∀ c, last (extractCommand response sendGifPattern).2 = Some c →
          isWhiteSpace c = false).
Proof.
  intros response.
  assert (occurs sendGifPattern response) as H
    by (apply occurs_str_match; vm_compute; eauto).
  split; [exact H |]. split; [reflexivity |].
  exact (proj2 (proj1 extractCommand_trims_whole_text response sendGifPattern H)).
Defined.

End ExtractClaims.

(** ** The handlers *)

Section HandlerFacts.
Import JS RegExp Ai.
Variable process_env : ProcessEnv.

Lemma getAIResponse_calls env prompt context user_id w :
  calls (getAIResponse process_env env prompt context user_id w).2 =
  calls w ++ [Post ([MkTurn system (default [] (SYSTEM_PROMPT process_env))]
                    ++ slice (-8) context ++ [MkTurn user prompt])].
Proof.
  unfold getAIResponse, try_catch, mbind, M_bind, call, logEvent, handleError,
    mret, M_ret.
  simpl. destruct (backend env _) as [[v|]|e]; simpl; [| done | done].
  by destruct (truthy v).
Qed.

Local Arguments lit : simpl never.
Local Opaque lit reactionPattern sendGifPattern.
Local Arguments extractCommand : simpl never.
Local Arguments escape : simpl never.
Local Arguments slice : simpl never.
Local Arguments join : simpl never.
Local Arguments reactionPattern : simpl never.
Local Arguments sendGifPattern : simpl never.

Ltac unfold_handlers :=
  unfold handleMessage, handleReaction, handleGifCommand, getAIResponse,
    handleGifUpload, insert_or_ignore, set_messageContexts,
    set_lastBotMessages, get_world, try_catch, throw, call, handleError,
    logEvent, or_else, mbind, M_bind, mret, M_ret in *.

(** The test on which the evaluation of a term waits. *)
Ltac head_of t :=
  lazymatch t with
  | ?f _ => head_of f
  | _ => t
  end.

Ltac blocker t k :=
  lazymatch t with
  | match ?x with _ => _ end => blocker x k
  | ?f ?a =>
      let h := head_of f in
      lazymatch h with
      | match ?x with _ => _ end => blocker x k
      | _ => k t
      end
  | _ => k t
  end.

(** Symbolic execution of the run [H : r = m w], test by test in program
    order; [prune] closes the branches that cannot be taken. *)
Ltac run_in H prune :=
  unfold_handlers; simpl in H;
  repeat (lazymatch type of H with
          | _ = (_, _) => fail
          | _ = ?rhs => blocker rhs ltac:(fun x => destruct x eqn:?)
          end; simpl in H; try solve [prune]).

(** Two runs that differ in the environment only, side by side. *)
Ltac run_both H1 H2 prune :=
  unfold_handlers; simpl in H1, H2;
  repeat (lazymatch type of H1 with
          | _ = (_, _) => fail
          | _ = ?rhs => blocker rhs ltac:(fun x => destruct x eqn:?)
          end; simpl in H1, H2; try solve [prune]).

(** C4.  The request of [getAIResponse] carries the system preamble, then
    the last eight turns of the context it was given (the whole context when
    that has eight turns or fewer), then the new user turn, and nothing
    else; the context may have any length. *)
Theorem getAIResponse_sends_window env prompt context user_id w :
  ∃ older window,
    context = older ++ window
    ∧ length window = (length context `min` 8)%nat
    ∧ ((length context ≤ 8)%nat → window = context)
    ∧ calls (getAIResponse process_env env prompt context user_id w).2 =
        calls w
        ++ [Post ([MkTurn system (default [] (SYSTEM_PROMPT process_env))]
                  ++ window ++ [MkTurn user prompt])].
Proof.
  exists (take (length context - 8) context), (slice (-8) context).
  change (-8) with (- Z.of_nat 8). rewrite slice_neg_spec.
  repeat split.
  - by rewrite take_drop.
  - rewrite length_drop. lia.
  - intros H. replace (length context - 8)%nat with 0%nat by lia. done.
  - rewrite getAIResponse_calls. change (-8) with (- Z.of_nat 8).
    by rewrite slice_neg_spec.
Qed.

(** C5.  When the backend call throws, or what it returns holds no
    non-empty text, [handleMessage] returns normally, the stored contexts
    and message ids are what they were, and no reply, animation or reaction
    is sent. *)
Theorem failed_exchange_is_silent env ctx text isReplyToBot w :
  (∀ messages, no_usable_response (backend env messages)) →
  let r := handleMessage process_env env ctx text isReplyToBot w in
  r.1 = Returns ()
  ∧ messageContexts r.2 = messageContexts w
  ∧ lastBotMessages r.2 = lastBotMessages w
  ∧ gifs r.2 = gifs w
  ∧ ∃ new, calls r.2 = calls w ++ new ∧ existsb is_send new = false.
Proof.
  intros Hno r. remember r as r' eqn:Hr. subst r.
  run_in Hr ltac:(idtac;
    match goal with
    | E : backend env ?m = Returns ?v |- _ =>
        pose proof (Hno m) as Hm; rewrite E in Hm; simpl in Hm;
        repeat match goal with H : ?x = ?y |- _ => subst x || subst y end;
        simpl in *; congruence
    end).
  all: subst r'; simpl; repeat split.
  all: try (exists []; by rewrite app_nil_r).
  all: eexists; rewrite <- ?app_assoc; (split; [reflexivity | done]).
Qed.

(** The branch behind a truthy media flag is never taken. *)
Ltac no_gif :=
  match goal with
  | E : extractCommand ?l sendGifPattern = (?g, _), T : truthy ?g = true |- _ =>
      pose proof (sendGif_flag l) as Hflag; rewrite E in Hflag; simpl in Hflag;
      congruence
  end.

(** What one unit of work does to the stored contexts. *)
Lemma handleMessage_contexts env ctx text isReplyToBot w :
  let w' := (handleMessage process_env env ctx text isReplyToBot w).2 in
  messageContexts w' = messageContexts w
  ∨ ∃ c final,
      isReplyToBot = true ∧ chat_id ctx = Some c ∧ final ≠ []
      ∧ messageContexts w' =
          <[c := slice (-18) (default [] (messageContexts w !! c))
                 ++ [MkTurn user text; MkTurn assistant final]]>
            (messageContexts w).
Proof.
  intros w'. remember (handleMessage _ _ _ _ _ _) as r eqn:Hr.
  assert (w' = r.2) as -> by (by subst r).
  unfold handleMessage in Hr.
  destruct (chat_id ctx) as [c|] eqn:Hc; simpl in Hr; [| by subst r; left].
  run_in Hr ltac:(idtac; no_gif).
  all: subst r; simpl; try (by left).
  all: right.
  all: match goal with H : bool_decide (?f = []) = false |- _ =>
         exists c, f; apply bool_decide_eq_false in H end.
  all: done.
Qed.

Lemma handleMessage_bounded env ctx text isReplyToBot w :
  (∀ c l, messageContexts w !! c = Some l → (length l ≤ 20)%nat) →
  ∀ c l,
    messageContexts (handleMessage process_env env ctx text isReplyToBot w).2
      !! c = Some l →
    (length l ≤ 20)%nat.
Proof.
  intros Hw c l.
  destruct (handleMessage_contexts env ctx text isReplyToBot w)
    as [-> | (c' & final & _ & _ & _ & ->)]; [apply Hw |].
  destruct (decide (c' = c)) as [-> | Hne].
  - rewrite lookup_insert_eq. intros [= <-].
    change (-18) with (- Z.of_nat 18).
    rewrite length_app, slice_neg_length. simpl. lia.
  - rewrite lookup_insert_ne by done. apply Hw.
Qed.

Lemma handleMessages_bounded units : ∀ w,
  (∀ c l, messageContexts w !! c = Some l → (length l ≤ 20)%nat) →
  ∀ c l,
    messageContexts (handleMessages process_env units w) !! c = Some l →
    (length l ≤ 20)%nat.
Proof.
  induction units as [|[[[env ctx] text] isReplyToBot] units IH]; intros w Hw;
    [exact Hw |].
  apply IH. by apply handleMessage_bounded.
Qed.

(** C1, as the code has it.  An append keeps the last 18 stored turns and
    then adds the new user and assistant turns, so a stored context never has
    more than 20 turns, whatever units of work are handled starting from no
    stored context. *)
Theorem context_retention_bound :
  (∀ env ctx text isReplyToBot w,
     let w' := (handleMessage process_env env ctx text isReplyToBot w).2 in
     messageContexts w' = messageContexts w
     ∨ ∃ c final,
         let stored := default [] (messageContexts w !! c) in
         isReplyToBot = true ∧ chat_id ctx = Some c ∧ final ≠ []
         ∧ messageContexts w' =
             <[c := drop (length stored - 18) stored
                    ++ [MkTurn user text; MkTurn assistant final]]>
               (messageContexts w))
  ∧ (∀ units ids rows cache made c l,
       messageContexts
         (handleMessages process_env units (MkWorld ∅ ids rows cache made))
         !! c = Some l →
       (length l ≤ 20)%nat).
Proof.
  split.
  - intros env ctx text isReplyToBot w.
    destruct (handleMessage_contexts env ctx text isReplyToBot w)
      as [H | (c & final & H1 & H2 & H3 & H)]; [by left | right].
    exists c, final. simpl. rewrite <- (slice_neg_spec 17). done.
  - intros units ids rows cache made. apply handleMessages_bounded.
    intros c l. simpl. by rewrite lookup_empty.
Qed.

(** C3, on the code.  [match[1]] of the media tag is [undefined], a falsy
    flag, so [handleMessage] never sends an animation: with a cached item
    and the answer ["hello %sendGif%"] the tag is stripped and the only thing
    sent is the reply. *)
Theorem sendGif_tag_sends_no_animation :
  (∀ response, truthy (extractCommand response sendGifPattern).1 = false)
  ∧ extractCommand (lit "hello %sendGif%") sendGifPattern
    = (VUndefined, lit "hello")
  ∧ (∀ env ctx text isReplyToBot w,
       ∃ new,
         calls (handleMessage process_env env ctx text isReplyToBot w).2
         = calls w ++ new
         ∧ existsb is_animation new = false)
  ∧ List.filter is_send
      (calls (handleMessage process_env (sample_env (lit "hello %sendGif%"))
                (sample_ctx 100) (lit "hi") true
                (MkWorld ∅ ∅ []
                   [MkGif (lit "AAAAIGZ0eXA=") (lit "AgADBAAD") (lit "t.me/7/99")]
                   [])).2)
    = [Reply (lit "hello") (Some 100)].
Proof.
  split; [apply sendGif_flag |]. split; [by vm_compute |].
  split; [| by vm_compute].
  intros env ctx text isReplyToBot w.
  remember (handleMessage _ _ _ _ _ _) as r eqn:Hr.
  run_in Hr ltac:(idtac; no_gif).
  all: subst r; simpl; rewrite <- ?app_assoc.
  all: try (exists []; by rewrite app_nil_r).
  all: eexists; (split; [reflexivity | done]).
Qed.

(** C8.  A [setMessageReaction] that throws is caught inside
    [handleReaction]: the call was made, one [ERROR] row
    [Reaction failed: <message>] is logged, and [false] is returned.  In
    [handleMessage], for a response that carries a reaction tag and leaves
    visible text, the failed reaction is followed by the second typing signal
    and the reply with that text, and the error is in the log behind the
    [RESPONSE] row.  Whatever the other answers are, the unit of work goes on
    as it does when the reaction succeeds: the same calls in the same order,
    the same stored contexts and message ids.  (The other command, the media
    tag, is dispatched in neither run.) *)
Theorem reaction_failure_is_swallowed :
  (∀ env ctx reaction w chat e,
     truthy reaction = true → falsy_id (message_id ctx) = false →
     chat_id ctx = Some chat →
     setMessageReaction env = Throws e →
     handleReaction env ctx reaction w
     = (Returns false,
        MkWorld (messageContexts w) (lastBotMessages w)
          (logs w ++ [MkLog (lit "ERROR") (lit "SYSTEM")
                        (VStr (lit "Reaction failed" ++ lit ": " ++ e))
                        (from_id ctx)])
          (gifs w)
          (calls w ++ [SetMessageReaction chat (default 0 (message_id ctx))
                         reaction])))
  ∧ (∀ env ctx text (isReplyToBot : bool) (w : World) response e,
       falsy_id (chat_id ctx) = false → falsy_id (from_id ctx) = false →
       falsy_id (message_id ctx) = false →
       typing_before env = Returns () →
       (∀ messages, backend env messages = Returns (Scalar (VStr response))) →
       occurs reactionPattern response →
       setMessageReaction env = Throws e →
       let final :=
         (extractCommand (extractCommand response reactionPattern).2
            sendGifPattern).2 in
       final ≠ [] →
       typing_after env = Returns () →
       let chat := default 0 (chat_id ctx) in
       let context :=
         if isReplyToBot then default [] (messageContexts w !! chat) else [] in
       let userName :=
         join (lit " ")
           (filter (λ s : jsstring, s ≠ [])
              (omap id [first_name ctx; last_name ctx])) in
       let r := handleMessage process_env env ctx text isReplyToBot w in
       ∃ symbol rows,
         (extractCommand response reactionPattern).1 = VStr symbol
         ∧ r.1 = Returns ()
         ∧ calls r.2
           = calls w
             ++ [SendChatAction chat (lit "typing");
                 Post ([MkTurn system (default [] (SYSTEM_PROMPT process_env))]
                       ++ slice (-8) context
                       ++ [MkTurn user (userName ++ lit ": " ++ text)]);
                 SetMessageReaction chat (default 0 (message_id ctx))
                   (VStr symbol);
                 SendChatAction chat (lit "typing");
                 Reply (escape final) (message_id ctx)]
         ∧ logs r.2
           = logs w
             ++ [MkLog (lit "RESPONSE") (lit "text") (VStr response) (from_id ctx);
                 MkLog (lit "ERROR") (lit "SYSTEM")
                   (VStr (lit "Reaction failed" ++ lit ": " ++ e)) (from_id ctx)]
             ++ rows
         ∧ match reply env with
           | Returns _ => rows = []
           | Throws e' =>
               rows = [MkLog (lit "ERROR") (lit "SYSTEM")
                         (VStr (lit "Message processing failed" ++ lit ": " ++ e'))
                         (from_id ctx)]
           end)
  ∧ (∀ env ctx text isReplyToBot w e,
       let failing := with_setMessageReaction (Throws e) env in
       let working := with_setMessageReaction (Returns ()) env in
       let failed := handleMessage process_env failing ctx text isReplyToBot w in
       let worked := handleMessage process_env working ctx text isReplyToBot w in
       setMessageReaction failing = Throws e
       ∧ setMessageReaction working = Returns ()
       ∧ failed.1 = Returns () ∧ worked.1 = Returns ()
       ∧ messageContexts failed.2 = messageContexts worked.2
       ∧ lastBotMessages failed.2 = lastBotMessages worked.2
       ∧ gifs failed.2 = gifs worked.2
       ∧ calls failed.2 = calls worked.2).
Proof.
  split; [| split].
  - intros env ctx reaction w chat e Ht Hm Hc Hs.
    unfold_handlers. rewrite Ht, Hm, Hc, Hs. simpl.
    done.
  - intros env ctx text isReplyToBot w response e Hc Hf Hm Htb Hb Hocc Hs final
      Hne Hta chat context userName r.
    destruct (extractCommand_reaction _ Hocc)
      as (symbol & pre & post & Hsym & _ & E & Hx).
    assert (response ≠ []) as Hnil.
    { intros ->. apply occurs_str_match in Hocc as [m Hm']. by vm_compute in Hm'. }
    subst final chat context userName. rewrite Hx in *. simpl in Hne |- *.
    pose proof (sendGif_flag (trim (pre ++ post))) as Hflag.
    destruct (extractCommand (trim (pre ++ post)) sendGifPattern) as [g f] eqn:E2.
    simpl in Hne, Hflag.
    exists symbol.
    remember r as r' eqn:Hr. subst r.
    unfold handleMessage in Hr. rewrite Hc, Hf in Hr. simpl in Hr.
    destruct (chat_id ctx) as [c|] eqn:Ec; [| done]. simpl in *.
    unfold_handlers. simpl in Hr.
    repeat (progress
              (rewrite ?Htb, ?Hb, ?Ec, ?Hs, ?Hta, ?Hm, ?Hx, ?E2, ?Hflag,
                 ?(bool_decide_eq_false_2 _ Hnil),
                 ?(bool_decide_eq_false_2 _ Hsym),
                 ?(bool_decide_eq_false_2 _ Hne) in Hr; simpl in Hr)).
    destruct isReplyToBot, (reply env) as [sent|e']; simpl in Hr; subst r'; simpl;
      rewrite <- ?app_assoc; simpl; eexists; repeat split; try reflexivity.
  - intros env ctx text isReplyToBot w e failing working failed worked.
    split; [done |]. split; [done |].
    remember failed as r1 eqn:H1. remember worked as r2 eqn:H2.
    subst failed worked failing working.
    unfold with_setMessageReaction in H1, H2.
    run_both H1 H2 ltac:(idtac; no_gif).
    all: subst r1 r2; simpl; done.
Qed.

Lemma existsb_hash (l : list GifRow) (h : jsstring) :
  existsb (λ r, bool_decide (hash r = h)) l = true ↔ ∃ r, r ∈ l ∧ hash r = h.
Proof.
  rewrite existsb_exists. split; intros [r [H1 H2]]; exists r.
  - split; [by apply list_elem_of_In | by apply bool_decide_eq_true in H2].
  - split; [by apply list_elem_of_In | by apply bool_decide_eq_true].
Qed.

Lemma existsb_key (l : list GifRow) (row : GifRow) :
  existsb (λ r, bool_decide (hash r = hash row ∧ url r = url row)) l = false →
  (hash row, url row) ∉ (λ r, (hash r, url r)) <$> l.
Proof.
  intros H [r [[= Hh Hu] Hr]]%list_elem_of_fmap.
  assert (existsb (λ r, bool_decide (hash r = hash row ∧ url r = url row)) l
          = true); [| congruence].
  apply existsb_exists. exists r. split; [by apply list_elem_of_In |].
  by apply bool_decide_eq_true.
Qed.

Lemma existsb_hash_false (l : list GifRow) (h : jsstring) :
  existsb (λ r, bool_decide (hash r = h)) l = false →
  ∀ r, r ∈ l → hash r ≠ h.
Proof.
  intros H r Hr Hh.
  assert (existsb (λ r, bool_decide (hash r = h)) l = true); [| congruence].
  apply existsb_hash. eauto.
Qed.

(** C2, as the code has it.  The upload handler looks the content hash up
    before it downloads anything: when some row has that hash, whatever its
    origin, nothing is stored, nothing is logged and the file is not fetched;
    a hash that is new is stored with its origin.  So the primary key
    [(hash, url)] stays unique, and so does the hash alone. *)
Theorem gif_upload_dedups_by_hash env ctx w :
  let w' := (handleGifUpload process_env env ctx w).2 in
  (∀ file,
     getFile env = Returns file →
     (∃ r, r ∈ gifs w ∧ hash r = file_unique_id file) →
     gifs w' = gifs w ∧ logs w' = logs w ∧ calls w' = calls w ++ [GetFile])
  ∧ (∀ file path data,
       getFile env = Returns file → file_path file = Some path → path ≠ [] →
       (∀ r, r ∈ gifs w → hash r ≠ file_unique_id file) →
       download env = Returns data →
       gifs w' = gifs w
         ++ [MkGif data (file_unique_id file)
               (lit "t.me/" ++ show_id (chat_id ctx) ++ lit "/"
                ++ show_id (message_id ctx))])
  ∧ (NoDup ((λ r, (hash r, url r)) <$> gifs w) →
     NoDup ((λ r, (hash r, url r)) <$> gifs w'))
  ∧ (NoDup (hash <$> gifs w) → NoDup (hash <$> gifs w')).
Proof.
  intros w'. remember (handleGifUpload _ _ _ _) as r eqn:Hr.
  assert (w' = r.2) as -> by (by subst r).
  run_in Hr idtac.
  all: subst r; simpl.
  all: try match goal with
       | |- context [existsb ?f ?l] => destruct (existsb f l) eqn:?
       end.
  all: split; [intros file' Hf' Hex
              | split; [intros file' path' data' Hf' Hp' Hne' Hno' Hd'
                       | split; [intros Hnd | intros Hnd]]].
  all: try done.
  all: simplify_eq.
  all: repeat match goal with
       | H : existsb (λ r, bool_decide (hash r = _)) _ = true |- _ =>
           apply existsb_hash in H as (r0 & Hr0 & Hh0)
       | H : existsb (λ r, bool_decide (hash r = _)) _ = false |- _ =>
           pose proof (existsb_hash_false _ _ H); clear H
       | H : existsb (λ r, bool_decide (hash r = _ ∧ url r = _)) _ = false |- _ =>
           apply existsb_key in H; simpl in H
       | H : existsb (λ r, bool_decide (hash r = _ ∧ url r = _)) _ = true |- _ =>
           apply existsb_exists in H as (r1 & Hr1%list_elem_of_In
                                         & [Hh1 Hu1]%bool_decide_eq_true)
       end.
  all: try (destruct Hex as (r2 & Hr2 & Hh2)).
  all: try (exfalso;
            match goal with
            | Hn : ∀ r, r ∈ _ → hash r ≠ _, Hr : ?r ∈ _, Hh : hash ?r = _ |- _ =>
                exact (Hn r Hr Hh)
            end).
  all: try done.
  - rewrite fmap_app. apply NoDup_app. repeat split; [done | | apply NoDup_singleton].
    intros k Hk ->%list_elem_of_singleton.
    match goal with
    | H : existsb _ _ = false |- _ =>
        exact (existsb_key _ (MkGif a0 (file_unique_id a) _) H Hk)
    end.
  - rewrite fmap_app. apply NoDup_app. repeat split; [done | | apply NoDup_singleton].
    intros k [r [-> Hr]]%list_elem_of_fmap Hin%list_elem_of_singleton.
    simpl in Hin. by eapply H.
Qed.

(** ** More on the handlers *)

(** A value cannot test truthy and falsy. *)
Ltac truthy_twice :=
  match goal with
  | H1 : truthy ?a = _, H2 : negb (truthy ?a) = _ |- _ =>
      rewrite H1 in H2; discriminate
  end.

(** What one unit of work leaves behind, in full: it returns, it only adds
    to the log and to the calls, it leaves the cache alone, and either no
    reply is attempted and both maps stay, or the reply of a non-empty text
    is its last call and the maps are written as the reply-to-bot flag and
    the answer to the reply say. *)
Lemma handleMessage_effect env ctx text isReplyToBot w :
  let chat := default 0 (chat_id ctx) in
  let stored := default [] (messageContexts w !! chat) in
  let current := default [] (lastBotMessages w !! chat) in
  ∃ contexts ids rows new,
    handleMessage process_env env ctx text isReplyToBot w
    = (Returns (), MkWorld contexts ids (logs w ++ rows) (gifs w)
                           (calls w ++ new))
    ∧ ((existsb is_reply new = false
        ∧ contexts = messageContexts w ∧ ids = lastBotMessages w)
       ∨ ∃ final,
           final ≠ []
           ∧ last new = Some (Reply (escape final) (message_id ctx))
           ∧ contexts =
               (if isReplyToBot
                then <[chat := slice (-18) stored
                               ++ [MkTurn user text; MkTurn assistant final]]>
                       (messageContexts w)
                else messageContexts w)
           ∧ ids =
               match isReplyToBot, reply env with
               | true, Returns sent =>
                   <[chat := slice (-9) current ++ [sent]]> (lastBotMessages w)
               | _, _ => lastBotMessages w
               end).
Proof.
  intros chat stored current. subst chat stored current.
  remember (handleMessage _ _ _ _ _ _) as r eqn:Hr.
  run_in Hr ltac:(idtac; first [no_gif | truthy_twice]).
  all: subst r; rewrite <- ?app_assoc.
  all: try (exists (messageContexts w), (lastBotMessages w), [], [];
            rewrite !app_nil_r; split; [by destruct w | by left]).
  all: eexists _, _, _, _;
       (split; [do 2 f_equal; first [reflexivity | symmetry; apply app_nil_r] |]).
  all: first
    [ left; by repeat split
    | right;
      match goal with H : bool_decide (?f = []) = false |- _ =>
        exists f; apply bool_decide_eq_false in H
      end; by repeat split ].
Qed.

(** The calls of one unit of work, in the only order they can come. *)
Lemma handleMessage_calls env ctx text (isReplyToBot : bool) (w : World) :
  let chat := default 0 (chat_id ctx) in
  let context :=
    if isReplyToBot then default [] (messageContexts w !! chat) else [] in
  let userName :=
    join (lit " ")
      (filter (λ s : jsstring, s ≠ [])
         (omap id [first_name ctx; last_name ctx])) in
  ∃ new symbol body,
    calls (handleMessage process_env env ctx text isReplyToBot w).2
    = calls w ++ new
    ∧ new `sublist_of`
        [SendChatAction chat (lit "typing");
         Post ([MkTurn system (default [] (SYSTEM_PROMPT process_env))]
               ++ slice (-8) context
               ++ [MkTurn user (userName ++ lit ": " ++ text)]);
         SetMessageReaction chat (default 0 (message_id ctx)) symbol;
         SendChatAction chat (lit "typing");
         Reply body (message_id ctx)].
Proof.
  intros chat context userName. subst chat context userName.
  remember (handleMessage _ _ _ _ _ _) as r eqn:Hr.
  run_in Hr ltac:(idtac; first [no_gif | truthy_twice]).
  all: subst r; simpl; rewrite <- ?app_assoc.
  all: try (exists [], VNull, []; rewrite app_nil_r; split;
            [done | apply sublist_nil_l]).
  all: eexists _;
       match goal with
       | H : extractCommand _ reactionPattern = (?v, _) |- _ => exists v
       | _ => exists VNull
       end;
       match goal with
       | H : extractCommand _ sendGifPattern = (_, ?f) |- _ => exists (escape f)
       | _ => exists []
       end.
  all: split; [reflexivity |]; simpl.
  all: repeat first [apply sublist_nil_l | apply sublist_skip | apply sublist_cons].
Qed.

(** The world after a handler that touches neither map nor the cache. *)
Ltac frame_leaf w :=
  eexists _, _, _;
  split;
  [first [ by (do 2 f_equal; first [reflexivity | symmetry; apply app_nil_r])
         | by (f_equal; destruct w; simpl; f_equal;
               first [reflexivity | symmetry; apply app_nil_r]) ] |].

(** [handleReaction]: when it calls, and what it answers. *)
Lemma handleReaction_effect env ctx reaction w :
  ∃ b rows new,
    handleReaction env ctx reaction w
    = (Returns b, MkWorld (messageContexts w) (lastBotMessages w)
                          (logs w ++ rows) (gifs w) (calls w ++ new))
    ∧ (b = true ↔
       truthy reaction = true ∧ falsy_id (message_id ctx) = false
       ∧ is_Some (chat_id ctx) ∧ setMessageReaction env = Returns ())
    ∧ (new = []
       ∨ ∃ chat, chat_id ctx = Some chat
           ∧ new = [SetMessageReaction chat (default 0 (message_id ctx)) reaction])
    ∧ (b = true →
       rows = [MkLog (lit "REACTION") (lit "SYSTEM") reaction (from_id ctx)])
    ∧ (new = [] → truthy reaction = false ∨ falsy_id (message_id ctx) = true
                  ∨ chat_id ctx = None).
Proof.
  remember (handleReaction env ctx reaction w) as r eqn:Hr.
  run_in Hr idtac.
  all: subst r; rewrite <- ?app_assoc; frame_leaf w.
  all: repeat match goal with
       | H : negb _ || _ = _ |- _ =>
           first [apply orb_true_iff in H as [?%negb_true_iff | ?]
                 | apply orb_false_iff in H as [?%negb_false_iff ?]]
       | u : () |- _ => destruct u
       end.
  all: repeat split; try done; try (by intros (? & ? & ? & ?)); try (by left);
       try congruence; eauto.
  all: try (intros (? & ? & [? ?] & ?); congruence).
Qed.

(** [handleGifCommand]: nothing happens on an empty cache; otherwise one row
    of the cache is sent, named after its hash. *)
Lemma handleGifCommand_effect env ctx w :
  ∃ b rows new,
    handleGifCommand env ctx w
    = (Returns b, MkWorld (messageContexts w) (lastBotMessages w)
                          (logs w ++ rows) (gifs w) (calls w ++ new))
    ∧ (gifs w = [] → b = false ∧ rows = [] ∧ new = [])
    ∧ (gifs w ≠ [] →
       ∃ row, row ∈ gifs w
         ∧ new = [ReplyWithAnimation (base64 row)
                    (lit "gif_" ++ hash row ++ lit ".mp4")]
         ∧ match replyWithAnimation env with
           | Returns _ =>
               b = true
               ∧ rows = [MkLog (lit "GIF_SENT") (lit "SYSTEM") (VStr (hash row))
                           (from_id ctx)]
           | Throws e =>
               b = false
               ∧ rows = [MkLog (lit "ERROR") (lit "SYSTEM")
                           (VStr (lit "GIF send failed" ++ lit ": " ++ e))
                           (from_id ctx)]
           end).
Proof.
  remember (handleGifCommand env ctx w) as r eqn:Hr.
  run_in Hr idtac.
  all: subst r; rewrite <- ?app_assoc; frame_leaf w.
  all: match goal with
       | H : gifs _ !! _ = Some ?row |- _ =>
           split; [intros E; by rewrite E in H |];
           intros _; exists row; split; [by eapply list_elem_of_lookup_2 |];
           by split
       | H : gifs ?w0 !! _ = None |- _ =>
           split; [done |]; intros Hne; exfalso;
           apply lookup_ge_None in H;
           destruct (gifs w0) as [|g l]; [done |];
           pose proof (Nat.mod_upper_bound (random_row env) (length (g :: l)));
           simpl in *; lia
       end.
Qed.

(** [getAIResponse]: [null], or the truthy content the backend returned
    when the log could take it. *)
Lemma getAIResponse_effect env prompt context user_id w :
  let messages :=
    [MkTurn system (default [] (SYSTEM_PROMPT process_env))]
    ++ slice (-8) context ++ [MkTurn user prompt] in
  ∃ v rows,
    getAIResponse process_env env prompt context user_id w
    = (Returns v, MkWorld (messageContexts w) (lastBotMessages w)
                          (logs w ++ rows) (gifs w)
                          (calls w ++ [Post messages]))
    ∧ (v = VNull ∨ truthy v = true)
    ∧ match backend env messages with
      | Returns (Scalar content) =>
          if truthy content
          then v = content
               ∧ rows = [MkLog (lit "RESPONSE") (lit "text") content user_id]
          else v = VNull ∧ rows = []
      | Returns Composite =>
          v = VNull
          ∧ rows = [MkLog (lit "ERROR") (lit "SYSTEM")
                      (VStr (lit "AI request failed" ++ lit ": "
                             ++ not_bindable (engine env))) None]
      | Throws e =>
          v = VNull
          ∧ rows = [MkLog (lit "ERROR") (lit "SYSTEM")
                      (VStr (lit "AI request failed" ++ lit ": " ++ e)) None]
      end.
Proof.
  intros messages. subst messages.
  remember (getAIResponse _ _ _ _ _ _) as r eqn:Hr. simpl.
  run_in Hr idtac.
  all: subst r; rewrite <- ?app_assoc.
  all: eexists _, _;
       (split; [do 2 f_equal; first [reflexivity | symmetry; apply app_nil_r] |]).
  all: split; [by (left + right) | done].
Qed.

(** [handleGifUpload]: at most one row is added, to the end of the table. *)
Lemma handleGifUpload_effect env ctx w :
  ∃ rows cache new,
    handleGifUpload process_env env ctx w
    = (Returns (), MkWorld (messageContexts w) (lastBotMessages w)
                           (logs w ++ rows) (gifs w ++ cache) (calls w ++ new))
    ∧ (cache = []
       ∨ ∃ file data,
           getFile env = Returns file ∧ download env = Returns data
           ∧ cache = [MkGif data (file_unique_id file)
                        (lit "t.me/" ++ show_id (chat_id ctx) ++ lit "/"
                         ++ show_id (message_id ctx))]).
Proof.
  remember (handleGifUpload _ _ _ _) as r eqn:Hr.
  run_in Hr idtac.
  all: subst r; simpl; rewrite <- ?app_assoc.
  all: try match goal with
       | |- context [existsb ?f ?l] => destruct (existsb f l) eqn:?
       end.
  all: eexists _, _, _;
       (split; [do 2 f_equal; first [reflexivity | symmetry; apply app_nil_r] |]).
  all: first [by left | right; eexists _, _; by repeat split].
Qed.

(** A hash that is in the table stops the upload before anything is
    stored. *)
Lemma handleGifUpload_known env ctx w file :
  getFile env = Returns file →
  (∃ r, r ∈ gifs w ∧ hash r = file_unique_id file) →
  gifs (handleGifUpload process_env env ctx w).2 = gifs w.
Proof.
  intros Hf Hex. remember (handleGifUpload _ _ _ _) as r eqn:Hr.
  run_in Hr idtac.
  all: subst r; simpl; try done.
  all: simplify_eq.
  all: match goal with
       | H : existsb (λ r, bool_decide (hash r = _)) _ = false |- _ =>
           pose proof (existsb_hash_false _ _ H) as Hn
       end.
  all: destruct Hex as (r0 & Hr0 & Hh0); by destruct (Hn r0 Hr0).
Qed.

(** What the upload does to the table depends on the table alone. *)
Lemma handleGifUpload_reads_table env ctx w1 w2 :
  gifs w1 = gifs w2 →
  gifs (handleGifUpload process_env env ctx w1).2
  = gifs (handleGifUpload process_env env ctx w2).2.
Proof.
  intros Hg.
  remember (handleGifUpload process_env env ctx w1) as r1 eqn:H1.
  remember (handleGifUpload process_env env ctx w2) as r2 eqn:H2.
  unfold_handlers. simpl in H1, H2. rewrite Hg in H1.
  run_both H1 H2 idtac.
  all: subst r1 r2; simpl; by rewrite ?Hg.
Qed.

Lemma World_eta (w : World) :
  MkWorld (messageContexts w) (lastBotMessages w) (logs w) (gifs w) (calls w) = w.
Proof. by destruct w. Qed.

(** X1.  No handler lets an exception out: whatever the Telegram API, the
    backend and the download answer, each of them returns. *)
Theorem handlers_never_throw env ctx text (isReplyToBot : bool) reaction prompt
    context user_id w :
  (∃ b, (handleReaction env ctx reaction w).1 = Returns b)
  ∧ (∃ b, (handleGifCommand env ctx w).1 = Returns b)
  ∧ (∃ v, (getAIResponse process_env env prompt context user_id w).1 = Returns v)
  ∧ (handleGifUpload process_env env ctx w).1 = Returns ()
  ∧ (handleMessage process_env env ctx text isReplyToBot w).1 = Returns ().
Proof.
  destruct (handleReaction_effect env ctx reaction w) as (b1 & ? & ? & -> & _).
  destruct (handleGifCommand_effect env ctx w) as (b2 & ? & ? & -> & _).
  destruct (getAIResponse_effect env prompt context user_id w)
    as (v & ? & -> & _).
  destruct (handleGifUpload_effect env ctx w) as (? & ? & ? & -> & _).
  destruct (handleMessage_effect env ctx text isReplyToBot w)
    as (? & ? & ? & ? & -> & _).
  simpl. eauto 10.
Qed.

(** X2.  The handlers only ever add: the log and the list of calls grow at
    their end, the two maps are written by [handleMessage] alone, and the
    cache by [handleGifUpload] alone, which appends at most one row. *)
Theorem handlers_only_append env ctx text (isReplyToBot : bool) reaction prompt
    context user_id w :
  let same_maps w' :=
    messageContexts w' = messageContexts w
    ∧ lastBotMessages w' = lastBotMessages w in
  let grows w' :=
    logs w `prefix_of` logs w' ∧ calls w `prefix_of` calls w' in
  (let w' := (handleReaction env ctx reaction w).2 in
   same_maps w' ∧ grows w' ∧ gifs w' = gifs w)
  ∧ (let w' := (handleGifCommand env ctx w).2 in
     same_maps w' ∧ grows w' ∧ gifs w' = gifs w)
  ∧ (let w' := (getAIResponse process_env env prompt context user_id w).2 in
     same_maps w' ∧ grows w' ∧ gifs w' = gifs w)
  ∧ (let w' := (handleGifUpload process_env env ctx w).2 in
     same_maps w' ∧ grows w' ∧ gifs w `prefix_of` gifs w'
     ∧ (length (gifs w') ≤ S (length (gifs w)))%nat)
  ∧ (let w' := (handleMessage process_env env ctx text isReplyToBot w).2 in
     grows w' ∧ gifs w' = gifs w).
Proof.
  intros same_maps grows. subst same_maps grows.
  destruct (handleReaction_effect env ctx reaction w) as (? & ? & ? & -> & _).
  destruct (handleGifCommand_effect env ctx w) as (? & ? & ? & -> & _).
  destruct (getAIResponse_effect env prompt context user_id w)
    as (? & ? & -> & _).
  destruct (handleGifUpload_effect env ctx w) as (? & cache & ? & -> & Hc).
  destruct (handleMessage_effect env ctx text isReplyToBot w)
    as (? & ? & ? & ? & -> & _).
  simpl. repeat split; try (by eexists).
  rewrite length_app.
  destruct Hc as [-> | (? & ? & _ & _ & ->)]; simpl; lia.
Qed.

(** X3.  The calls of one unit of work come in one order and each at most
    once: the typing signal, the request with the last eight turns of the
    context in use, the reaction, the second typing signal, the reply to the
    message at hand.  No file is fetched and no animation is sent. *)
Theorem unit_of_work_calls_in_order env ctx text (isReplyToBot : bool)
    (w : World) :
  let chat := default 0 (chat_id ctx) in
  let context :=
    if isReplyToBot then default [] (messageContexts w !! chat) else [] in
  let userName :=
    join (lit " ")
      (filter (λ s : jsstring, s ≠ [])
         (omap id [first_name ctx; last_name ctx])) in
  ∃ new symbol body,
    calls (handleMessage process_env env ctx text isReplyToBot w).2
    = calls w ++ new
    ∧ new `sublist_of`
        [SendChatAction chat (lit "typing");
         Post ([MkTurn system (default [] (SYSTEM_PROMPT process_env))]
               ++ slice (-8) context
               ++ [MkTurn user (userName ++ lit ": " ++ text)]);
         SetMessageReaction chat (default 0 (message_id ctx)) symbol;
         SendChatAction chat (lit "typing");
         Reply body (message_id ctx)].
Proof. apply handleMessage_calls. Qed.

(** X4.  The stored assistant turn is the text of the reply: either no reply
    is attempted and both maps stay as they are, or the reply is the last
    call, its body is the escaped non-empty final text, and for a reply to
    the bot that same text is stored after the user turn, behind the last 18
    stored turns, whether the reply call then returns or throws; the id of
    the sent message is recorded, behind the last 9, only when it returns. *)
Theorem reply_text_is_stored_turn env ctx text (isReplyToBot : bool) (w : World) :
  let chat := default 0 (chat_id ctx) in
  let stored := default [] (messageContexts w !! chat) in
  let current := default [] (lastBotMessages w !! chat) in
  let w' := (handleMessage process_env env ctx text isReplyToBot w).2 in
  ∃ new,
    calls w' = calls w ++ new
    ∧ ((existsb is_reply new = false
        ∧ messageContexts w' = messageContexts w
        ∧ lastBotMessages w' = lastBotMessages w)
       ∨ ∃ final,
           final ≠ []
           ∧ last new = Some (Reply (escape final) (message_id ctx))
           ∧ messageContexts w' =
               (if isReplyToBot
                then <[chat := drop (length stored - 18) stored
                               ++ [MkTurn user text; MkTurn assistant final]]>
                       (messageContexts w)
                else messageContexts w)
           ∧ lastBotMessages w' =
               match isReplyToBot, reply env with
               | true, Returns sent =>
                   <[chat := drop (length current - 9) current ++ [sent]]>
                     (lastBotMessages w)
               | _, _ => lastBotMessages w
               end).
Proof.
  intros chat stored current w'. subst w'.
  destruct (handleMessage_effect env ctx text isReplyToBot w)
    as (contexts & ids & rows & new & -> & H).
  exists new. split; [done |]. simpl.
  fold chat stored current in H.
  rewrite <- (slice_neg_spec 17 stored), <- (slice_neg_spec 8 current).
  exact H.
Qed.

Lemma handleMessage_ids_bounded env ctx text isReplyToBot w :
  (∀ c l, lastBotMessages w !! c = Some l → (length l ≤ 10)%nat) →
  ∀ c l,
    lastBotMessages (handleMessage process_env env ctx text isReplyToBot w).2
      !! c = Some l →
    (length l ≤ 10)%nat.
Proof.
  intros Hw c l.
  destruct (handleMessage_effect env ctx text isReplyToBot w)
    as (contexts & ids & rows & new & -> & [(_ & _ & ->) | (f & _ & _ & _ & ->)]);
    simpl; [apply Hw |].
  destruct isReplyToBot; [| apply Hw].
  destruct (reply env) as [sent|]; [| apply Hw].
  destruct (decide (default 0 (chat_id ctx) = c)) as [-> | Hne].
  - rewrite lookup_insert_eq. intros [= <-].
    change (-9) with (- Z.of_nat 9).
    rewrite length_app, slice_neg_length. simpl. lia.
  - rewrite lookup_insert_ne by done. apply Hw.
Qed.

(** X5.  The list of recently sent message ids never holds more than ten:
    each successful reply to the bot keeps the last nine and adds one. *)
Theorem sent_ids_bounded units contexts rows cache made c l :
  lastBotMessages
    (handleMessages process_env units (MkWorld contexts ∅ rows cache made))
    !! c = Some l →
  (length l ≤ 10)%nat.
Proof.
  assert (∀ w,
    (∀ c l, lastBotMessages w !! c = Some l → (length l ≤ 10)%nat) →
    ∀ c l, lastBotMessages (handleMessages process_env units w) !! c = Some l →
           (length l ≤ 10)%nat) as H.
  { induction units as [|[[[env ctx] text] isReplyToBot] units IH]; intros w Hw;
      [exact Hw |].
    apply IH. by apply handleMessage_ids_bounded. }
  apply H. intros c' l'. simpl. by rewrite lookup_empty.
Qed.

(** X6.  A message that is not a reply to the bot starts from nothing: the
    request holds the system preamble and the new user turn only, and
    neither map is written, also when a reply is sent. *)
Theorem fresh_trigger_has_no_memory env ctx text (w : World) :
  let userName :=
    join (lit " ")
      (filter (λ s : jsstring, s ≠ [])
         (omap id [first_name ctx; last_name ctx])) in
  let w' := (handleMessage process_env env ctx text false w).2 in
  messageContexts w' = messageContexts w
  ∧ lastBotMessages w' = lastBotMessages w
  ∧ ∃ new,
      calls w' = calls w ++ new
      ∧ ∀ messages,
          Post messages ∈ new →
          messages = [MkTurn system (default [] (SYSTEM_PROMPT process_env));
                      MkTurn user (userName ++ lit ": " ++ text)].
Proof.
  intros userName w'. subst w'.
  destruct (handleMessage_calls env ctx text false w)
    as (new & symbol & body & Hc & Hs).
  destruct (handleMessage_effect env ctx text false w)
    as (contexts & ids & rows & new' & E & H).
  rewrite E in Hc |- *. simpl in *.
  repeat split.
  - by destruct H as [(_ & -> & _) | (f & _ & _ & -> & _)].
  - by destruct H as [(_ & _ & ->) | (f & _ & _ & _ & ->)].
  - apply app_inv_head in Hc as ->. exists new. split; [done |].
    intros messages Hin. apply (elem_of_sublist _ _ _ Hin) in Hs.
    repeat (apply elem_of_cons in Hs as [Hs | Hs]; try done).
    + by injection Hs as ->.
    + by apply elem_of_nil in Hs.
Qed.

(** X7.  A reply to the bot always brings the latest stored exchange along:
    when the stored context of the chat ends with two turns, every request
    of the unit of work ends with these two turns and the new user turn. *)
Theorem last_exchange_is_forwarded env ctx text (w : World) c stored u a :
  chat_id ctx = Some c →
  messageContexts w !! c = Some (stored ++ [u; a]) →
  ∃ new,
    calls (handleMessage process_env env ctx text true w).2 = calls w ++ new
    ∧ ∀ messages,
        Post messages ∈ new →
        ∃ older prompt, messages = older ++ [u; a; MkTurn user prompt].
Proof.
  intros Hc Hs.
  destruct (handleMessage_calls env ctx text true w)
    as (new & symbol & body & -> & Hsub).
  exists new. split; [done |].
  intros messages Hin. apply (elem_of_sublist _ _ _ Hin) in Hsub.
  rewrite Hc in Hsub. simpl in Hsub. rewrite Hs in Hsub. simpl in Hsub.
  repeat (apply elem_of_cons in Hsub as [Hsub | Hsub]; try done);
    [| by apply elem_of_nil in Hsub].
  injection Hsub as ->.
  change (-8) with (- Z.of_nat 8). rewrite slice_neg_spec.
  rewrite drop_app_le by (rewrite length_app; simpl; lia).
  eexists (_ :: drop _ stored), _. simpl. by rewrite <- app_assoc.
Qed.

(** X8.  [handleGifCommand] on an empty cache does nothing and answers
    [false]; on a cache with rows it sends one of them, named
    [gif_<hash>.mp4], answers [true] exactly when the send returns, and logs
    the hash sent or the error. *)
Theorem gif_command_sends_cached_row env ctx (w : World) :
  (gifs w = [] → handleGifCommand env ctx w = (Returns false, w))
  ∧ (gifs w ≠ [] →
     ∃ row b rows,
       row ∈ gifs w
       ∧ handleGifCommand env ctx w
         = (Returns b,
            MkWorld (messageContexts w) (lastBotMessages w) (logs w ++ rows)
              (gifs w)
              (calls w ++ [ReplyWithAnimation (base64 row)
                             (lit "gif_" ++ hash row ++ lit ".mp4")]))
       ∧ match replyWithAnimation env with
         | Returns _ =>
             b = true
             ∧ rows = [MkLog (lit "GIF_SENT") (lit "SYSTEM") (VStr (hash row))
                         (from_id ctx)]
         | Throws e =>
             b = false
             ∧ rows = [MkLog (lit "ERROR") (lit "SYSTEM")
                         (VStr (lit "GIF send failed" ++ lit ": " ++ e))
                         (from_id ctx)]
         end).
Proof.
  destruct (handleGifCommand_effect env ctx w)
    as (b & rows & new & -> & Hempty & Hrows).
  split.
  - intros H. destruct (Hempty H) as (-> & -> & ->).
    by rewrite !app_nil_r, World_eta.
  - intros H. destruct (Hrows H) as (row & Hin & -> & Hr).
    by exists row, b, rows.
Qed.

(** X9.  [handleReaction] answers [true] exactly when there is a reaction to
    set, a message to set it on, and the call returns; it makes at most one
    call, and none only when the reaction is falsy or the message or chat is
    missing. *)
Theorem reaction_reports_success env ctx reaction (w : World) :
  ∃ b rows new,
    handleReaction env ctx reaction w
    = (Returns b, MkWorld (messageContexts w) (lastBotMessages w)
                          (logs w ++ rows) (gifs w) (calls w ++ new))
    ∧ (b = true ↔
       truthy reaction = true ∧ falsy_id (message_id ctx) = false
       ∧ is_Some (chat_id ctx) ∧ setMessageReaction env = Returns ())
    ∧ (new = []
       ∨ ∃ chat, chat_id ctx = Some chat
           ∧ new = [SetMessageReaction chat (default 0 (message_id ctx)) reaction])
    ∧ (b = true →
       rows = [MkLog (lit "REACTION") (lit "SYSTEM") reaction (from_id ctx)])
    ∧ (new = [] → truthy reaction = false ∨ falsy_id (message_id ctx) = true
                  ∨ chat_id ctx = None).
Proof. apply handleReaction_effect. Qed.

(** X10.  [getAIResponse] answers [null] or a truthy value, never another
    falsy one: the content of the response when that is a truthy string,
    number or boolean, logged as a [RESPONSE]; [null] without a log row when
    the content is falsy; [null] with an [ERROR] row that names no user when
    the request throws, and also when the content is an array or an object,
    which the log cannot take: the error is then the driver's. *)
Theorem ai_response_null_or_truthy env prompt context user_id (w : World) :
  let messages :=
    [MkTurn system (default [] (SYSTEM_PROMPT process_env))]
    ++ slice (-8) context ++ [MkTurn user prompt] in
  ∃ v rows,
    getAIResponse process_env env prompt context user_id w
    = (Returns v, MkWorld (messageContexts w) (lastBotMessages w)
                          (logs w ++ rows) (gifs w)
                          (calls w ++ [Post messages]))
    ∧ (v = VNull ∨ truthy v = true)
    ∧ match backend env messages with
      | Returns (Scalar content) =>
          if truthy content
          then v = content
               ∧ rows = [MkLog (lit "RESPONSE") (lit "text") content user_id]
          else v = VNull ∧ rows = []
      | Returns Composite =>
          v = VNull
          ∧ rows = [MkLog (lit "ERROR") (lit "SYSTEM")
                      (VStr (lit "AI request failed" ++ lit ": "
                             ++ not_bindable (engine env))) None]
      | Throws e =>
          v = VNull
          ∧ rows = [MkLog (lit "ERROR") (lit "SYSTEM")
                      (VStr (lit "AI request failed" ++ lit ": " ++ e)) None]
      end.
Proof. apply getAIResponse_effect. Qed.

Lemma handleGifUpload_table env ctx w :
  gifs (handleGifUpload process_env env ctx w).2
  = gifs w
    ++ newly_stored env
         (lit "t.me/" ++ show_id (chat_id ctx) ++ lit "/"
          ++ show_id (message_id ctx))
         (gifs w).
Proof.
  unfold newly_stored.
  remember (handleGifUpload _ _ _ _) as r eqn:Hr.
  run_in Hr idtac.
  all: subst r; simpl; rewrite ?app_nil_r; try done.
  match goal with
  | |- context [existsb ?f ?l] => destruct (existsb f l) eqn:Hp
  end; [| done].
  apply existsb_exists in Hp as (r1 & Hr1%list_elem_of_In
                                 & [Hh1 _]%bool_decide_eq_true).
  match goal with
  | H : existsb _ _ = false |- _ => pose proof (existsb_hash_false _ _ H) as Hn
  end.
  by destruct (Hn r1 Hr1).
Qed.

Lemma newly_stored_again env origin origin' table :
  newly_stored env origin' (table ++ newly_stored env origin table) = [].
Proof.
  unfold newly_stored.
  destruct (getFile env) as [file|]; [| done].
  destruct (file_path file) as [[|c path]|]; [done | | done].
  destruct (existsb _ table) eqn:Hx.
  - by rewrite app_nil_r, Hx.
  - destruct (download env) as [data|].
    + rewrite existsb_app. simpl. rewrite bool_decide_eq_true_2 by done.
      by rewrite orb_true_r.
    + by rewrite app_nil_r, Hx.
Qed.

(** X11.  Uploading the same file again changes nothing: after one upload a
    second one with the same answers from outside, from the same message or
    from another, leaves the table as it is. *)
Theorem gif_upload_idempotent env ctx ctx' (w : World) :
  let w1 := (handleGifUpload process_env env ctx w).2 in
  gifs (handleGifUpload process_env env ctx' w1).2 = gifs w1.
Proof.
  intros w1. subst w1.
  rewrite (handleGifUpload_table env ctx' _), (handleGifUpload_table env ctx w).
  by rewrite newly_stored_again, app_nil_r.
Qed.

(** X12.  An upload that fails stores nothing and leaves one error row: when
    [getFile] throws, and when the download throws for a file whose hash is
    new.  A file without a path is dropped without a log row or a
    download. *)
Theorem gif_upload_failures env ctx (w : World) :
  let r := handleGifUpload process_env env ctx w in
  let failed e :=
    MkLog (lit "ERROR") (lit "SYSTEM")
      (VStr (lit "GIF upload failed" ++ lit ": " ++ e)) (from_id ctx) in
  (∀ e, getFile env = Throws e →
     r = (Returns (),
          MkWorld (messageContexts w) (lastBotMessages w) (logs w ++ [failed e])
            (gifs w) (calls w ++ [GetFile])))
  ∧ (∀ file, getFile env = Returns file →
       file_path file = None ∨ file_path file = Some [] →
       r = (Returns (),
            MkWorld (messageContexts w) (lastBotMessages w) (logs w) (gifs w)
              (calls w ++ [GetFile])))
  ∧ (∀ file path e,
       getFile env = Returns file → file_path file = Some path → path ≠ [] →
       (∀ r, r ∈ gifs w → hash r ≠ file_unique_id file) →
       download env = Throws e →
       r = (Returns (),
            MkWorld (messageContexts w) (lastBotMessages w)
              (logs w ++ [failed e]) (gifs w)
              (calls w
               ++ [GetFile;
                   Download (lit "https://api.telegram.org/file/bot"
                             ++ show_str (TELEGRAM_TOKEN process_env)
                             ++ lit "/" ++ path)]))).
Proof.
  intros r failed. subst failed.
  remember r as r' eqn:Hr. subst r.
  run_in Hr idtac.
  all: subst r'; simpl; rewrite <- ?app_assoc.
  all: split; [intros e' He' | split; [intros file' Hf' Hp'
               | intros file' path' e' Hf' Hp' Hne' Hno' Hd']].
  all: simplify_eq; try done.
  all: try (by destruct Hp').
  all: repeat match goal with
       | H : existsb (λ r, bool_decide (hash r = _)) _ = true |- _ =>
           apply existsb_hash in H as (r0 & Hr0 & Hh0)
       end.
  all: try congruence.
  all: try (by destruct (Hno' r0 Hr0)).
  all: destruct Hp'; congruence.
Qed.

End HandlerFacts.

(** ** The text that is sent *)

Section TextFacts.
Import JS RegExp Ai.

Lemma escape_cons (c : N) (s : jsstring) :
  escape (c :: s) =
  (if bool_decide (c ∈ reserved) then [92%N; c] else [c]) ++ escape s.
Proof. reflexivity. Qed.

Lemma backslash_not_reserved : 92%N ∉ reserved.
Proof. apply (bool_decide_eq_false_1 (92%N ∈ reserved)). by vm_compute. Qed.

(** The escaped text never starts with a reserved character. *)
Lemma escape_head (s : jsstring) (c : N) :
  head (escape s) = Some c → c ∉ reserved.
Proof.
  destruct s as [|d s]; [done |]. rewrite escape_cons.
  destruct (bool_decide (d ∈ reserved)) eqn:E; simpl; intros [= <-].
  - apply backslash_not_reserved.
  - by apply bool_decide_eq_false in E.
Qed.

(** X13.  In the escaped text every reserved character has a backslash right
    before it; a text without reserved characters is sent as it is, and
    escaping at most doubles the length.  (The backslash itself is not
    reserved and is not escaped.) *)
Theorem escape_guards_reserved (s : jsstring) :
  (∀ i c, escape s !! i = Some c → c ∈ reserved →
     ∃ j, i = S j ∧ escape s !! j = Some 92%N)
  ∧ ((∀ c, c ∈ s → c ∉ reserved) → escape s = s)
  ∧ (length s ≤ length (escape s) ≤ 2 * length s)%nat.
Proof.
  induction s as [|d s (IH1 & IH2 & IH3)]; [by repeat split |].
  rewrite escape_cons. repeat split.
  - intros i c Hi Hc.
    destruct (bool_decide (d ∈ reserved)) eqn:E.
    + destruct i as [|[|i]]; simpl in Hi.
      * injection Hi as <-. by destruct backslash_not_reserved.
      * by exists 0%nat.
      * destruct (IH1 i c Hi Hc) as (j & -> & Hj). by exists (S (S j)).
    + destruct i as [|i]; simpl in Hi.
      * injection Hi as <-. by apply bool_decide_eq_false in E.
      * destruct (IH1 i c Hi Hc) as (j & -> & Hj). by exists (S j).
  - intros Hs. rewrite bool_decide_eq_false_2
      by (apply Hs, list_elem_of_here).
    simpl. f_equal. apply IH2. intros c Hc. by apply Hs, list_elem_of_further.
  - destruct (bool_decide _); simpl; lia.
  - destruct (bool_decide _); simpl; lia.
Qed.

(** X14.  Escaping loses nothing: two different texts never give the same
    message body. *)
Theorem escape_injective (s1 s2 : jsstring) :
  escape s1 = escape s2 → s1 = s2.
Proof.
  revert s2. induction s1 as [|c s1 IH]; intros [|d s2]; rewrite ?escape_cons.
  - done.
  - by destruct (bool_decide _).
  - by destruct (bool_decide _).
  - destruct (bool_decide (c ∈ reserved)) eqn:Ec,
      (bool_decide (d ∈ reserved)) eqn:Ed; simpl; intros H.
    + injection H as -> H. by rewrite (IH _ H).
    + injection H as <- H. apply bool_decide_eq_true in Ec.
      destruct (escape_head s2 c); [by rewrite <- H | done].
    + injection H as -> H. apply bool_decide_eq_true in Ed.
      destruct (escape_head s1 d); [by rewrite H | done].
    + injection H as -> H. by rewrite (IH _ H).
Qed.

Lemma trim_sublist (s : jsstring) : trim s `sublist_of` s.
Proof.
  destruct (trim_spec s) as ((lead & trail & E & _) & _).
  rewrite E at 2. apply sublist_inserts_l, sublist_inserts_r. done.
Qed.

(** X15.  [extractCommand] invents no text: what it returns is what is left
    of the response after characters were taken out, in the same order, and
    on a match at least the matched tag is gone. *)
Theorem extractCommand_only_removes (response : jsstring) (pattern : regexp) :
  (extractCommand response pattern).2 `sublist_of` response
  ∧ ∀ m, str_match response pattern = Some m →
      (length (extractCommand response pattern).2 + length (matched m)
       ≤ length response)%nat.
Proof.
  destruct (str_match response pattern) as [m|] eqn:Hm.
  - destruct (extractCommand_Some _ _ _ Hm) as (pre & post & E & _ & _ & _ & ->).
    simpl.
    assert (trim (pre ++ post) `sublist_of` pre ++ post) as Ht
      by apply trim_sublist.
    split.
    + etrans; [exact Ht |]. rewrite E.
      apply sublist_app; [done |]. by apply sublist_inserts_l.
    + intros ? [= <-]. apply sublist_length in Ht.
      rewrite E, !length_app in *. lia.
  - unfold extractCommand. rewrite Hm. simpl. split; [done |]. by intros.
Qed.

End TextFacts.

(** ** The picture handler *)

Section PictureFacts.
Import JS Picture.

(** Each firing of the interval adds one chat action, whatever the answer. *)
Lemma loading_fold (fired : list (Ai.outcome ())) : ∀ a l i v,
  foldl (λ w answer, (loading answer w).2) (MkWorld a l i v) fired
  = MkWorld a (l ++ ((λ _, ReplyWithChatAction (lit "upload_photo")) <$> fired))
      i v.
Proof.
  induction fired as [|answer fired IH]; intros a l i v; simpl.
  - by rewrite app_nil_r.
  - assert ((loading answer (MkWorld a l i v)).2
            = MkWorld a (l ++ [ReplyWithChatAction (lit "upload_photo")]) i v)
      as -> by (by destruct answer).
    rewrite IH, <- app_assoc. reflexivity.
Qed.

Lemma await_effect {A} (c : Call) (r : Ai.outcome A)
    (fired : list (Ai.outcome ())) (w : World) :
  await c r fired w
  = (r, MkWorld (ai w)
          (requests w
           ++ c :: ((λ _, ReplyWithChatAction (lit "upload_photo")) <$> fired))
          (intervals w) (loadingInterval w)).
Proof.
  unfold await, call. cbn [snd]. rewrite loading_fold, <- app_assoc.
  reflexivity.
Qed.

(** What [getAIPicture] does, stage by stage. *)
Lemma getAIPicture_effect (env : Env) (ctx : Context) (prompt : jsstring)
    (w : World) :
  let fired l := (λ _ : Ai.outcome (), ReplyWithChatAction (lit "upload_photo")) <$> l in
  let url encoded :=
    lit "https://fluxwebui.com/generate/" ++ encoded
    ++ lit "?width=576&height=1024&seed="
    ++ string_of_number (Z.of_nat (random env `mod` 1000))
    ++ lit "&model=flux&nologo=true&nofeed=true" in
  let failed (e : jsstring) made : Ai.outcome jsstring * World :=
    (Ai.Throws e,
     MkWorld (Ai.handleError (lit "Image generation failed") e
                (Ai.from_id (base ctx)) (ai w)).2
       (requests w ++ made) (intervals w) (Some ())) in
  getAIPicture env ctx prompt w
  = match encodeURIComponent (URIError env) prompt with
    | Ai.Throws e => failed e []
    | Ai.Returns encoded =>
        let asked := Get (url encoded) :: fired (during_get env) in
        match get env with
        | Ai.Throws e => failed e asked
        | Ai.Returns None => failed (lit "Empty image response") asked
        | Ai.Returns (Some data) =>
            let sent :=
              asked
              ++ ReplyWithPhoto data (lit "image.jpg") (Ai.message_id (base ctx))
                 :: fired (during_reply env) in
            match replyWithPhoto env with
            | Ai.Throws e => failed e sent
            | Ai.Returns _ =>
                (Ai.Returns data,
                 MkWorld (Ai.logEvent (lit "RESPONSE") (lit "image")
                            (or_else (from_option VStr VUndefined (document ctx))
                                     (VStr (lit "unknown")))
                            (Ai.from_id (base ctx)) (ai w)).2
                   (requests w ++ sent) (intervals w) (Some ()))
            end
        end
    end.
Proof.
  intros fired url failed. subst fired url failed.
  unfold getAIPicture, try_finally, try_catch, of_outcome, throw, lift,
    set_loadingInterval, get_loadingInterval, setInterval, clearInterval,
    mbind, M_bind, mret, M_ret.
  cbn [fst snd ai requests intervals loadingInterval].
  destruct (encodeURIComponent (URIError env) prompt) as [encoded|e].
  - rewrite await_effect. cbn [fst snd ai requests intervals loadingInterval].
    destruct (get env) as [[data|]|e].
    + rewrite await_effect. cbn [fst snd ai requests intervals loadingInterval].
      destruct (replyWithPhoto env) as [[]|e]; simpl; by rewrite <- !app_assoc.
    + done.
    + done.
  - by rewrite app_nil_r.
Qed.

Lemma hex_digit_unescaped (n : N) : (n < 16)%N → unescaped (hex_digit n) = true.
Proof.
  intros H. destruct n as [|p]; [reflexivity |].
  do 4 (destruct p as [p|p|]; try reflexivity); lia.
Qed.

Lemma percent_safe (octet : N) :
  (octet < 256)%N →
  Forall (λ c, unescaped c = true ∨ c = 37%N) (percent octet).
Proof.
  intros H. unfold percent.
  apply Forall_cons. split; [by right |].
  apply Forall_cons. split.
  { left. apply hex_digit_unescaped. apply N.Div0.div_lt_upper_bound. lia. }
  apply Forall_cons. split; [| by apply Forall_nil].
  left. apply hex_digit_unescaped. apply N.mod_lt. lia.
Qed.

Lemma utf8_octets (cp : N) :
  (cp < 1114112)%N → Forall (λ octet, (octet < 256)%N) (utf8 cp).
Proof.
  intros H. unfold utf8.
  assert (∀ a, (a mod 64 < 64)%N) as Hm by (intros a; apply N.mod_lt; lia).
  destruct (N.ltb_spec cp 128); [repeat constructor; lia |].
  destruct (N.ltb_spec cp 2048).
  { assert (cp / 64 < 32)%N by (apply N.Div0.div_lt_upper_bound; lia).
    pose proof (Hm cp). repeat constructor; lia. }
  destruct (N.ltb_spec cp 65536).
  { assert (cp / 4096 < 16)%N by (apply N.Div0.div_lt_upper_bound; lia).
    pose proof (Hm cp). pose proof (Hm (cp / 64)%N). repeat constructor; lia. }
  assert (cp / 262144 < 5)%N by (apply N.Div0.div_lt_upper_bound; lia).
  pose proof (Hm cp). pose proof (Hm (cp / 64)%N). pose proof (Hm (cp / 4096)%N).
  repeat constructor; lia.
Qed.

Lemma escaped_safe (cp : N) :
  (cp < 1114112)%N →
  Forall (λ c, unescaped c = true ∨ c = 37%N) (utf8 cp ≫= percent).
Proof.
  intros H. apply Forall_bind. eapply Forall_impl; [by apply utf8_octets |].
  intros octet. apply percent_safe.
Qed.

(** What [encodeURIComponent] returns is made of unescaped characters and
    percent signs only. *)
Lemma encodeURIComponent_safe (malformed : jsstring) (n : nat) : ∀ s r,
  (length s ≤ n)%nat →
  Forall (λ c, (c < 65536)%N) s →
  encodeURIComponent malformed s = Ai.Returns r →
  Forall (λ c, unescaped c = true ∨ c = 37%N) r.
Proof.
  induction n as [|n IH]; intros [|c s] r Hn Hs H; simpl in *;
    try (injection H as <-); try done; try lia.
  apply Forall_cons in Hs as [Hc Hs].
  destruct (unescaped c) eqn:Hu.
  { destruct (encodeURIComponent malformed s) as [r'|] eqn:E; [| done].
    injection H as <-. constructor; [by left |].
    apply (IH s); [lia | done | done]. }
  destruct (is_trailing c); [done |].
  destruct (is_leading c) eqn:Hl.
  - destruct s as [|d s]; [done |].
    destruct (is_trailing d) eqn:Ht; [| done].
    destruct (encodeURIComponent malformed s) as [r'|] eqn:E; [| done].
    injection H as <-. apply Forall_app. split.
    + apply escaped_safe. unfold is_leading, is_trailing in *.
      apply andb_true_iff in Hl as [_ ?%N.leb_le].
      apply andb_true_iff in Ht as [_ ?%N.leb_le]. lia.
    + apply Forall_cons in Hs as [_ Hs]. simpl in Hn.
      apply (IH s); [lia | done | done].
  - destruct (encodeURIComponent malformed s) as [r'|] eqn:E; [| done].
    injection H as <-. apply Forall_app. split.
    + apply escaped_safe. lia.
    + apply (IH s); [lia | done | done].
Qed.

(** X18.  [getAIPicture] cleans up after itself on every path: the interval
    it started is cleared when it returns and when it throws, the log has
    grown by exactly one row, and nothing else of the state of [ai.ts] has
    changed. *)
Theorem picture_cleans_up env ctx prompt (w : World) :
  let w' := (getAIPicture env ctx prompt w).2 in
  intervals w' = intervals w
  ∧ (∃ row, Ai.logs (ai w') = Ai.logs (ai w) ++ [row])
  ∧ Ai.messageContexts (ai w') = Ai.messageContexts (ai w)
  ∧ Ai.lastBotMessages (ai w') = Ai.lastBotMessages (ai w)
  ∧ Ai.gifs (ai w') = Ai.gifs (ai w)
  ∧ Ai.calls (ai w') = Ai.calls (ai w).
Proof.
  intros w'. subst w'. rewrite getAIPicture_effect.
  destruct (encodeURIComponent (URIError env) prompt);
    [| by repeat split; eexists].
  destruct (get env) as [[?|]|]; [| by repeat split; eexists..].
  destruct (replyWithPhoto env); by repeat split; eexists.
Qed.

(** X19.  [getAIPicture] returns the image data only when the prompt could
    be encoded, the download returned data and the photo was sent; then it
    logs a [RESPONSE].  In every other case it logs
    [Image generation failed: <message>] and throws the same error again:
    the URIError of the prompt, the error of the download or of the send, or
    [Empty image response]. *)
Theorem picture_failure_is_rethrown env ctx prompt (w : World) :
  let r := getAIPicture env ctx prompt w in
  match r.1 with
  | Ai.Returns data =>
      get env = Ai.Returns (Some data)
      ∧ replyWithPhoto env = Ai.Returns ()
      ∧ (∃ encoded,
           encodeURIComponent (URIError env) prompt = Ai.Returns encoded)
      ∧ ReplyWithPhoto data (lit "image.jpg") (Ai.message_id (base ctx))
        ∈ requests r.2
      ∧ Ai.logs (ai r.2)
        = Ai.logs (ai w)
          ++ [Ai.MkLog (lit "RESPONSE") (lit "image")
                (or_else (from_option VStr VUndefined (document ctx))
                         (VStr (lit "unknown")))
                (Ai.from_id (base ctx))]
  | Ai.Throws e =>
      (encodeURIComponent (URIError env) prompt = Ai.Throws e
       ∨ get env = Ai.Throws e
       ∨ (get env = Ai.Returns None ∧ e = lit "Empty image response")
       ∨ replyWithPhoto env = Ai.Throws e)
      ∧ (∀ data name to, ReplyWithPhoto data name to ∈ requests r.2 →
           ReplyWithPhoto data name to ∈ requests w
           ∨ replyWithPhoto env = Ai.Throws e)
      ∧ Ai.logs (ai r.2)
        = Ai.logs (ai w)
          ++ [Ai.MkLog (lit "ERROR") (lit "SYSTEM")
                (VStr (lit "Image generation failed" ++ lit ": " ++ e))
                (Ai.from_id (base ctx))]
  end.
Proof.
  intros r. subst r. rewrite getAIPicture_effect.
  destruct (encodeURIComponent (URIError env) prompt) as [encoded|e]; simpl.
  - destruct (get env) as [[data|]|e]; simpl.
    + destruct (replyWithPhoto env) as [[]|e]; simpl.
      * repeat split; eauto.
        apply elem_of_app. right. apply list_elem_of_further, elem_of_app.
        right. apply list_elem_of_here.
      * repeat split; eauto 6.
    + repeat split; eauto 6.
      intros data name to. rewrite elem_of_app, elem_of_cons, list_elem_of_fmap.
      intros [? | [? | (? & ? & ?)]]; [by left | done | done].
    + repeat split; eauto.
      intros data name to. rewrite elem_of_app, elem_of_cons, list_elem_of_fmap.
      intros [? | [? | (? & ? & ?)]]; [by left | done | done].
  - repeat split; eauto.
    intros data name to. rewrite app_nil_r. by left.
Qed.

(** X20.  The prompt cannot change the shape of the request: a download is
    asked for at most once, and its URL is the fixed prefix, the encoded
    prompt, the fixed query with a seed below 1000, where the encoded prompt
    holds nothing but unescaped characters and percent signs. *)
Theorem picture_url_is_well_formed env ctx prompt (w : World) :
  Forall (λ c, (c < 65536)%N) prompt →
  let is_get c := match c with Get _ => true | _ => false end in
  ∃ new,
    requests (getAIPicture env ctx prompt w).2 = requests w ++ new
    ∧ (List.filter is_get new = []
       ∨ ∃ encoded seed,
           List.filter is_get new
           = [Get (lit "https://fluxwebui.com/generate/" ++ encoded
                   ++ lit "?width=576&height=1024&seed="
                   ++ string_of_number seed
                   ++ lit "&model=flux&nologo=true&nofeed=true")]
           ∧ encodeURIComponent (URIError env) prompt = Ai.Returns encoded
           ∧ Forall (λ c, unescaped c = true ∨ c = 37%N) encoded
           ∧ 0 ≤ seed < 1000).
Proof.
  intros Hp is_get. rewrite getAIPicture_effect.
  assert (∀ (l : list (Ai.outcome ())),
    List.filter is_get
      ((λ _, ReplyWithChatAction (lit "upload_photo")) <$> l) = []) as Hf
    by (by induction l).
  destruct (encodeURIComponent (URIError env) prompt) as [encoded|e] eqn:E;
    [| exists []; split; [done | by left]].
  pose proof (encodeURIComponent_safe _ _ _ _ (le_n _) Hp E) as Hsafe.
  assert (0 ≤ Z.of_nat (random env `mod` 1000) < 1000) as Hseed.
  { pose proof (Nat.mod_upper_bound (random env) 1000). lia. }
  destruct (get env) as [[data|]|e']; [destruct (replyWithPhoto env) | |];
    eexists; (split; [reflexivity |]); right;
    exists encoded, (Z.of_nat (random env `mod` 1000));
    (split; [| done]); simpl;
    rewrite ?List.filter_app; simpl; by rewrite ?Hf.
Qed.

End PictureFacts.

(** ** The chat queue *)

Section QueueFacts.
Import JS Index.

(** A chain with nothing left to do has settled the way [final] says; one
    with something left is pending. *)
Lemma state_coherent (p : promise) :
  (remaining p = [] → state p = final p)
  ∧ (remaining p ≠ [] → state p = Pending).
Proof.
  induction p as [|p [IH1 IH2] r|p [IH1 IH2] u r]; simpl.
  - done.
  - destruct (remaining p) as [|ev evs] eqn:E.
    + rewrite IH1 by done. simpl.
      destruct (final p); simpl; [done | | done].
      destruct r as [h|t k|s]; simpl; [done | | done].
      split; [| done]. by destruct k.
    + rewrite IH2 by done. done.
  - destruct (remaining p) as [|ev evs] eqn:E.
    + rewrite IH1 by done. simpl.
      destruct (final p); simpl; [done | done |].
      by destruct r.
    + rewrite IH2 by done. done.
Qed.

(** A tick emits the first of the remaining events, and does not change how
    the chain will settle. *)
Lemma tick_Some (p : promise) : ∀ w p' w' ev,
  tick p w = Some (p', w', ev) →
  remaining p = ev :: remaining p' ∧ final p' = final p.
Proof.
  induction p as [|p IH r|p IH u r]; intros w p' w' ev H; simpl in H.
  - done.
  - destruct (state_coherent p) as [Hc1 Hc2].
    destruct (remaining p) as [|ev0 evs] eqn:E.
    + rewrite Hc1 in H by done. simpl. rewrite E.
      destruct (final p) eqn:Hf; simpl in *.
      * destruct (tick p w) as [[[q w1] ev1]|] eqn:Ht; simpl in H; [| done].
        by destruct (IH _ _ _ _ Ht).
      * destruct r as [h|t [|e|k]|s]; simpl in H; try done;
          injection H as <- <- <-; simpl; by rewrite E, Hf.
      * done.
    + rewrite Hc2 in H by done.
      destruct (tick p w) as [[[q w1] ev1]|] eqn:Ht; simpl in H; [| done].
      injection H as <- <- <-.
      destruct (IH _ _ _ _ Ht) as [Hr Hf]. simpl.
      rewrite E, Hf. by injection Hr as <- <-.
  - destruct (state_coherent p) as [Hc1 Hc2].
    destruct (remaining p) as [|ev0 evs] eqn:E.
    + rewrite Hc1 in H by done. simpl. rewrite E.
      destruct (final p) eqn:Hf; simpl in *.
      * destruct (tick p w) as [[[q w1] ev1]|] eqn:Ht; simpl in H; [| done].
        by destruct (IH _ _ _ _ Ht).
      * done.
      * destruct r as [s|]; [done |].
        unfold Ai.handleError, Ai.logEvent in H. injection H as <- <- <-.
        simpl. by rewrite E, Hf.
    + rewrite Hc2 in H by done.
      destruct (tick p w) as [[[q w1] ev1]|] eqn:Ht; simpl in H; [| done].
      injection H as <- <- <-.
      destruct (IH _ _ _ _ Ht) as [Hr Hf]. simpl.
      rewrite E, Hf. by injection Hr as <- <-.
Qed.

(** While events remain, the lane can tick. *)
Lemma tick_None (p : promise) (w : Ai.World) :
  tick p w = None → remaining p = [].
Proof.
  induction p as [|p IH r|p IH u r]; simpl; [done | |].
  - destruct (state_coherent p) as [Hc1 Hc2].
    destruct (remaining p) as [|ev evs] eqn:E.
    + rewrite Hc1 by done. destruct (final p); simpl; try done.
      destruct r as [h|t k|s]; simpl; [done | by destruct k | done].
    + rewrite Hc2 by done. destruct (tick p w) as [[[? ?] ?]|]; [done |].
      intros _. by specialize (IH eq_refl).
  - destruct (state_coherent p) as [Hc1 Hc2].
    destruct (remaining p) as [|ev evs] eqn:E.
    + rewrite Hc1 by done. destruct (final p); simpl; try done.
      by destruct r.
    + rewrite Hc2 by done. destruct (tick p w) as [[[? ?] ?]|]; [done |].
      intros _. by specialize (IH eq_refl).
Qed.

Lemma job_final_settled (k : job) : job_final k ≠ Pending.
Proof. by induction k. Qed.

Lemma lane_snoc (c c' : Z) (tr : list (Z * event)) (ev : event) :
  lane c (tr ++ [(c', ev)]) = lane c tr ++ (if bool_decide (c' = c) then [ev] else []).
Proof. unfold lane. rewrite omap_app. simpl. by destruct (bool_decide _). Qed.

(** One tick of a lane emits the next of its remaining events, if any. *)
Lemma run_tick_lane (c : Z) (st : State) :
  remaining (chain c (run_tick c st)) = drop 1 (remaining (chain c st))
  ∧ final (chain c (run_tick c st)) = final (chain c st)
  ∧ lane c (trace (run_tick c st))
    = lane c (trace st) ++ take 1 (remaining (chain c st)).
Proof.
  unfold run_tick, chain.
  destruct (chatQueues st !! c) as [p|] eqn:Hp; simpl.
  - destruct (tick p (world st)) as [[[p' w'] ev]|] eqn:Ht; simpl.
    + apply tick_Some in Ht as [-> Hf]. simpl.
      rewrite lookup_insert_eq, lane_snoc, bool_decide_eq_true_2 by done.
      simpl. by rewrite drop_0.
    + apply tick_None in Ht. rewrite Hp, Ht. simpl. by rewrite app_nil_r.
  - rewrite Hp. simpl. by rewrite app_nil_r.
Qed.

Lemma run_tick_other (c c' : Z) (st : State) :
  c' ≠ c →
  chain c (run_tick c' st) = chain c st
  ∧ lane c (trace (run_tick c' st)) = lane c (trace st).
Proof.
  intros Hne. unfold run_tick, chain.
  destruct (chatQueues st !! c') as [p|]; [| done].
  destruct (tick p (world st)) as [[[p' w'] ev]|]; [| done]. simpl.
  rewrite lookup_insert_ne, lane_snoc, bool_decide_eq_false_2 by done.
  by rewrite app_nil_r.
Qed.

Lemma run_snoc (sched : list action) (a : action) (st : State) :
  run (sched ++ [a]) st = step (run sched st) a.
Proof. unfold run. by rewrite foldl_app. Qed.

Lemma enqueued_snoc (c : Z) (sched : list action) (a : action) :
  enqueued c (sched ++ [a]) =
  enqueued c sched
  ++ match a with
     | Enqueue c' _ h => if bool_decide (c' = c) then [h] else []
     | Tick _ => []
     end.
Proof.
  unfold enqueued. rewrite omap_app. simpl.
  destruct a as [c' u h|c']; [| done]. by destruct (bool_decide _).
Qed.

(** What has happened on a lane, followed by what its chain still has to do,
    is the queued handlers run one after the other. *)
Lemma run_invariant (w : Ai.World) (c : Z) : ∀ sched,
  final (chain c (run sched (init w))) = Fulfilled
  ∧ lane c (trace (run sched (init w)))
    ++ remaining (chain c (run sched (init w)))
    = enqueued c sched ≫= script.
Proof.
  induction sched as [|a sched [IHf IHl]] using rev_ind; [done |].
  rewrite run_snoc, enqueued_snoc, bind_app, <- IHl.
  set (st := run sched (init w)) in *.
  destruct a as [c' u h|c']; simpl.
  - unfold queueMessage, chain. simpl.
    destruct (decide (c' = c)) as [-> | Hne].
    + rewrite lookup_insert_eq, bool_decide_eq_true_2 by done. simpl.
      fold (chain c st). rewrite IHf. simpl.
      pose proof (job_final_settled (body h)) as Hk.
      unfold script. rewrite app_nil_r.
      destruct (job_final (body h)); simpl; [done | |];
        by rewrite <- ?app_assoc, ?app_nil_r.
    + rewrite lookup_insert_ne, bool_decide_eq_false_2 by done.
      fold (chain c st). simpl. by rewrite app_nil_r.
  - rewrite app_nil_r. destruct (decide (c' = c)) as [-> | Hne].
    + destruct (run_tick_lane c st) as (-> & -> & ->).
      rewrite <- app_assoc, take_drop. done.
    + by destruct (run_tick_other c c' st Hne) as [-> ->].
Qed.

(** Ticks of a lane work its remaining events off, one at a time. *)
Lemma run_ticks (c : Z) : ∀ m st,
  remaining (chain c (run (replicate m (Tick c)) st))
  = drop m (remaining (chain c st))
  ∧ lane c (trace (run (replicate m (Tick c)) st))
    = lane c (trace st) ++ take m (remaining (chain c st)).
Proof.
  induction m as [|m IH]; intros st; simpl.
  - by rewrite drop_0, app_nil_r.
  - change (run (Tick c :: ?l) st) with (run l (run_tick c st)).
    destruct (IH (run_tick c st)) as [-> ->].
    destruct (run_tick_lane c st) as (-> & _ & ->).
    rewrite drop_drop, <- app_assoc. split; [done |].
    f_equal. destruct (remaining (chain c st)); simpl; [by rewrite take_nil |].
    by rewrite drop_0.
Qed.

(** C9.  Whatever the order in which messages arrive and the event loop
    picks lanes, the events of the lane of one chat are a prefix of its
    queued handlers run one after the other in the order of the
    [queueMessage] calls: a handler starts only after the one before it has
    returned, or has thrown and had its error caught, and a handler that
    throws is followed by the next one.  With enough turns of the event loop
    the lane runs every queued handler to its end. *)
Theorem lane_runs_in_queue_order (w : Ai.World) (sched : list action) (c : Z) :
  lane c (trace (run sched (init w))) `prefix_of` (enqueued c sched ≫= script)
  ∧ ∀ m, (length (enqueued c sched ≫= script) ≤ m)%nat →
      lane c (trace (run (sched ++ replicate m (Tick c)) (init w)))
      = enqueued c sched ≫= script.
Proof.
  destruct (run_invariant w c sched) as [_ Hinv]. split.
  - rewrite <- Hinv. by eexists.
  - intros m Hm. rewrite <- Hinv, length_app in Hm.
    unfold run at 1. rewrite foldl_app.
    fold (run sched (init w)).
    fold (run (replicate m (Tick c)) (run sched (init w))).
    destruct (run_ticks c m (run sched (init w))) as [_ ->].
    rewrite take_ge by lia. done.
Qed.

(** What a tick does to the chain does not depend on the world. *)
Lemma tick_world (p : promise) (w1 w2 : Ai.World) :
  (λ '(p', _, ev), (p', ev)) <$> tick p w1
  = (λ '(p', _, ev), (p', ev)) <$> tick p w2.
Proof.
  induction p as [|p IH r|p IH u r]; simpl; [done | |].
  - destruct (state p); [| | done].
    + destruct (tick p w1) as [[[? ?] ?]|], (tick p w2) as [[[? ?] ?]|];
        simpl in *; by simplify_eq.
    + by destruct (tick_reaction r) as [[? ?]|].
  - destruct (state p); [| done |].
    + destruct (tick p w1) as [[[? ?] ?]|], (tick p w2) as [[[? ?] ?]|];
        simpl in *; by simplify_eq.
    + by destruct r.
Qed.

Lemma run_tick_chain (c : Z) (st : State) :
  (chain c (run_tick c st), lane c (trace (run_tick c st)))
  = match (λ '(p', _, ev), (p', ev)) <$> tick (chain c st) (world st) with
    | Some (p', ev) => (p', lane c (trace st) ++ [ev])
    | None => (chain c st, lane c (trace st))
    end.
Proof.
  unfold run_tick, chain.
  destruct (chatQueues st !! c) as [p|] eqn:Hp; simpl; [| by rewrite Hp].
  destruct (tick p (world st)) as [[[p' w'] ev]|]; simpl; [| by rewrite Hp].
  by rewrite lookup_insert_eq, lane_snoc, bool_decide_eq_true_2.
Qed.

Lemma queueMessage_chain (c c' : Z) (u : option Z) (h : handler) (st : State) :
  chain c (queueMessage c' u h st)
  = (if bool_decide (c' = c)
     then Catch (Then (chain c st) (NotCalled h)) u None
     else chain c st)
  ∧ trace (queueMessage c' u h st) = trace st
  ∧ world (queueMessage c' u h st) = world st.
Proof.
  unfold queueMessage, chain. simpl. repeat split.
  case_bool_decide as H.
  - subst. by rewrite lookup_insert_eq.
  - by rewrite lookup_insert_ne.
Qed.

(** X16.  The lanes do not touch each other: what happens on the lane of a
    chat is what would happen if the messages and event-loop turns of the
    other chats were not there, and it does not depend on the log either. *)
Theorem lanes_are_independent (w w' : Ai.World) (sched : list action) (c : Z) :
  lane c (trace (run sched (init w)))
  = lane c (trace (run (List.filter (on_chat c) sched) (init w'))).
Proof.
  cut (chain c (run sched (init w))
       = chain c (run (List.filter (on_chat c) sched) (init w'))
       ∧ lane c (trace (run sched (init w)))
         = lane c (trace (run (List.filter (on_chat c) sched) (init w'))));
    [by intros [_ ?] |].
  induction sched as [|a sched [IHc IHl]] using rev_ind; [done |].
  rewrite List.filter_app, run_snoc. simpl.
  set (st := run sched (init w)) in *.
  set (st' := run (List.filter (on_chat c) sched) (init w')) in *.
  destruct a as [c' u h|c']; simpl.
  - destruct (queueMessage_chain c c' u h st) as (-> & _ & _).
    case_bool_decide as H.
    + rewrite run_snoc. fold st'.
      change (step st' (Enqueue c' u h)) with (queueMessage c' u h st').
      destruct (queueMessage_chain c c' u h st') as (-> & -> & _).
      by rewrite bool_decide_eq_true_2, IHc by done.
    + by rewrite app_nil_r.
  - case_bool_decide as H.
    + subst c'. rewrite run_snoc. fold st'.
      change (step st' (Tick c)) with (run_tick c st').
      pose proof (run_tick_chain c st) as H1.
      pose proof (run_tick_chain c st') as H2.
      rewrite IHc, IHl, (tick_world _ (world st) (world st')) in H1.
      rewrite <- H2 in H1. by injection H1.
    + rewrite app_nil_r.
      by destruct (run_tick_other c c' st H) as [-> ->].
Qed.

(** A tick writes to the world only when it catches an error, and then it
    adds the one log row of that error. *)
Lemma tick_writes (p : promise) : ∀ w p' w' ev,
  tick p w = Some (p', w', ev) →
  match ev with
  | Caught e =>
      ∃ u, w' = Ai.MkWorld (Ai.messageContexts w) (Ai.lastBotMessages w)
                  (Ai.logs w
                   ++ [Ai.MkLog (lit "ERROR") (lit "SYSTEM")
                         (VStr (lit "Queue error" ++ lit ": " ++ e)) u])
                  (Ai.gifs w) (Ai.calls w)
  | _ => w' = w
  end.
Proof.
  induction p as [|p IH r|p IH u r]; intros w p' w' ev H; simpl in H; [done | |].
  - destruct (state p); [| | done].
    + destruct (tick p w) as [[[q w1] ev1]|] eqn:Ht; simpl in H; [| done].
      injection H as <- <- <-. by apply (IH _ _ _ _ Ht).
    + destruct r as [h|t [|e|k]|s]; simpl in H; by simplify_eq.
  - destruct (state p); [| done |].
    + destruct (tick p w) as [[[q w1] ev1]|] eqn:Ht; simpl in H; [| done].
      injection H as <- <- <-. by apply (IH _ _ _ _ Ht).
    + destruct r; [done |].
      unfold Ai.handleError, Ai.logEvent in H. injection H as <- <- <-.
      by exists u.
Qed.

(** X17.  The queue itself writes nothing but its own error rows.  A handler
    is here its suspension points and its outcome, its own writes left out;
    then after any run the maps, the cache and the calls of the world are as
    they were, and the log has grown by one [ERROR] row per caught error, in
    the order they were caught, each with the text
    [Queue error: <message>]. *)
Theorem queue_logs_caught_errors (w : Ai.World) (sched : list action) :
  let st := run sched (init w) in
  Ai.messageContexts (world st) = Ai.messageContexts w
  ∧ Ai.lastBotMessages (world st) = Ai.lastBotMessages w
  ∧ Ai.gifs (world st) = Ai.gifs w
  ∧ Ai.calls (world st) = Ai.calls w
  ∧ ∃ rows,
      Ai.logs (world st) = Ai.logs w ++ rows
      ∧ Forall (λ r, Ai.event r = lit "ERROR" ∧ Ai.type r = lit "SYSTEM") rows
      ∧ Ai.text <$> rows
        = (λ e, VStr (lit "Queue error" ++ lit ": " ++ e)) <$> caught (trace st).
Proof.
  induction sched as [|a sched IH] using rev_ind.
  { simpl. repeat split. exists []. by rewrite app_nil_r. }
  simpl in *. rewrite run_snoc.
  set (st := run sched (init w)) in *.
  destruct IH as (Hm & Hi & Hg & Hc & rows & Hl & Hrows & Ht).
  destruct a as [c u h|c]; simpl.
  { repeat split; try done. by exists rows. }
  unfold run_tick.
  destruct (chatQueues st !! c) as [p|]; [| repeat split; try done; by exists rows].
  destruct (tick p (world st)) as [[[p' w'] ev]|] eqn:Htick;
    [| repeat split; try done; by exists rows].
  apply tick_writes in Htick. simpl. unfold caught. rewrite omap_app.
  fold (caught (trace st)). simpl.
  destruct ev; subst; try (rewrite app_nil_r; repeat split; try done;
                            by exists rows).
  destruct Htick as [u' ->]. simpl. repeat split; try done.
  exists (rows ++ [Ai.MkLog (lit "ERROR") (lit "SYSTEM")
                     (VStr (lit "Queue error" ++ lit ": " ++ e)) u']).
  rewrite Hl, <- app_assoc, !fmap_app, Ht. repeat split; try done.
  apply Forall_app. split; [done |]. by repeat constructor.
Qed.

End QueueFacts.

(** ** The claims on concrete runs *)

Section Runs.
Import JS RegExp Ai Index.

(** C1 as stated fails: ten exchanges in reply to the bot leave twenty turns
    in the store, two more than eighteen. *)
Lemma context_exceeds_18_turns :
  ∃ l,
    messageContexts
      (handleMessages sample_process_env
         (replicate 10 (sample_env (lit "ok"), sample_ctx 100, lit "hi", true))
         empty_world) !! 7 = Some l
    ∧ length l = 20%nat ∧ ¬ (length l ≤ 18)%nat.
Proof.
  eexists. split; [by vm_compute |]. split; [reflexivity |]. vm_compute. lia.
Qed.

Lemma context_retention_bound_witness :
  ∃ l,
    messageContexts
      (handleMessages sample_process_env
         (replicate 12 (sample_env (lit "ok"), sample_ctx 100, lit "hi", true))
         empty_world) !! 7 = Some l
    ∧ length l = 20%nat ∧ (length l ≤ 20)%nat.
Proof.
  eexists. split; [by vm_compute |]. split; [reflexivity |].
  eapply (proj2 (context_retention_bound sample_process_env)
            (replicate 12 (sample_env (lit "ok"), sample_ctx 100, lit "hi", true))
            ∅ [] [] [] 7).
  by vm_compute.
Defined.

(** C2 as stated fails: the file stored from message 100 and sent again in
    message 101 is not stored a second time, although its origin is new. *)
Lemma same_hash_new_origin_not_stored :
  let w1 := (handleGifUpload sample_process_env (sample_env []) (sample_ctx 100)
               empty_world).2 in
  let w2 := (handleGifUpload sample_process_env (sample_env []) (sample_ctx 101)
               w1).2 in
  gifs w1 = [MkGif (lit "AAAAIGZ0eXA=") (lit "AgADBAAD") (lit "t.me/7/100")]
  ∧ gifs w2 = gifs w1
  ∧ ¬ ∃ r, r ∈ gifs w2 ∧ hash r = lit "AgADBAAD" ∧ url r = lit "t.me/7/101".
Proof.
  split; [by vm_compute |]. split; [by vm_compute |].
  intros (r & Hr & _ & Hu). vm_compute in Hr.
  apply list_elem_of_singleton in Hr. subst r. vm_compute in Hu. done.
Qed.

Lemma gif_upload_dedups_by_hash_witness :
  let w1 := (handleGifUpload sample_process_env (sample_env []) (sample_ctx 100)
               empty_world).2 in
  let w2 := (handleGifUpload sample_process_env (sample_env []) (sample_ctx 101)
               w1).2 in
  (∃ r, r ∈ gifs w1 ∧ hash r = lit "AgADBAAD")
  ∧ gifs w2 = gifs w1 ∧ logs w2 = logs w1 ∧ calls w2 = calls w1 ++ [GetFile].
Proof.
  intros w1 w2.
  assert (∃ r, r ∈ gifs w1 ∧ hash r = lit "AgADBAAD") as H.
  { exists (MkGif (lit "AAAAIGZ0eXA=") (lit "AgADBAAD") (lit "t.me/7/100")).
    split; [| reflexivity]. vm_compute. apply list_elem_of_here. }
  split; [exact H |].
  exact (proj1 (gif_upload_dedups_by_hash sample_process_env (sample_env [])
                  (sample_ctx 101) w1)
           (MkFile (Some (lit "animations/file_1.mp4")) (lit "AgADBAAD"))
           eq_refl H).
Defined.

Lemma getAIResponse_sends_window_witness :
  let context := [MkTurn user (lit "hi"); MkTurn assistant (lit "hello")] in
  calls (getAIResponse sample_process_env (sample_env (lit "ok")) (lit "Ann: hm")
           context (Some 42) empty_world).2
  = [Post ([MkTurn system (lit "You are Gado.")] ++ context
           ++ [MkTurn user (lit "Ann: hm")])].
Proof.
  intros context.
  destruct (getAIResponse_sends_window sample_process_env (sample_env (lit "ok"))
              (lit "Ann: hm") context (Some 42) empty_world)
    as (older & window & _ & _ & Hall & ->).
  rewrite Hall by (simpl; lia). reflexivity.
Defined.

Lemma failed_exchange_is_silent_witness :
  let env := MkEnv (Returns ())
               (λ _, Throws (lit "timeout of 30000ms exceeded")) (Returns ()) 0
               (Returns ()) (Returns ()) (Returns 500)
               (Throws (lit "no file")) (Throws (lit "no file"))
               sample_engine in
  let w := (handleMessage sample_process_env (sample_env (lit "ok"))
              (sample_ctx 100) (lit "hi") true empty_world).2 in
  let r := handleMessage sample_process_env env (sample_ctx 102) (lit "more") true
             w in
  (∀ messages, no_usable_response (backend env messages))
  ∧ r.1 = Returns ()
  ∧ messageContexts r.2 = messageContexts w
  ∧ lastBotMessages r.2 = lastBotMessages w
  ∧ gifs r.2 = gifs w
  ∧ ∃ new, calls r.2 = calls w ++ new ∧ existsb is_send new = false.
Proof.
  intros env w r.
  assert (∀ messages, no_usable_response (backend env messages)) as H
    by (intros messages; exact I).
  split; [exact H |].
  exact (failed_exchange_is_silent sample_process_env env (sample_ctx 102)
           (lit "more") true w H).
Defined.

Lemma reaction_failure_is_swallowed_witness :
  let refused := lit "Bad Request: REACTION_INVALID" in
  let env := with_setMessageReaction (Throws refused)
               (sample_env (lit " ok %Reaction(x)% fine %sendGif% ")) in
  let r := handleMessage sample_process_env env (sample_ctx 100) (lit "hi") true
             empty_world in
  handleReaction env (sample_ctx 100) (VStr (lit "x")) empty_world
  = (Returns false,
     MkWorld ∅ ∅
       [MkLog (lit "ERROR") (lit "SYSTEM")
          (VStr (lit "Reaction failed: Bad Request: REACTION_INVALID")) (Some 42)]
       []
       [SetMessageReaction 7 100 (VStr (lit "x"))])
  ∧ r.1 = Returns ()
  ∧ calls r.2
    = [SendChatAction 7 (lit "typing");
       Post [MkTurn system (lit "You are Gado."); MkTurn user (lit "Ann: hi")];
       SetMessageReaction 7 100 (VStr (lit "x"));
       SendChatAction 7 (lit "typing");
       Reply (lit "ok  fine") (Some 100)]
  ∧ logs r.2
    = [MkLog (lit "RESPONSE") (lit "text")
         (VStr (lit " ok %Reaction(x)% fine %sendGif% ")) (Some 42);
       MkLog (lit "ERROR") (lit "SYSTEM")
         (VStr (lit "Reaction failed: Bad Request: REACTION_INVALID")) (Some 42)].
Proof.
  intros refused env r.
  pose proof (reaction_failure_is_swallowed sample_process_env)
    as (Hreaction & Hmessage & _).
  split.
  - exact (Hreaction env (sample_ctx 100) (VStr (lit "x")) empty_world 7 refused
             eq_refl eq_refl eq_refl eq_refl).
  - assert (occurs reactionPattern (lit " ok %Reaction(x)% fine %sendGif% "))
      as Hocc by (apply occurs_str_match; vm_compute; eauto).
    destruct (Hmessage env (sample_ctx 100) (lit "hi") true empty_world
                (lit " ok %Reaction(x)% fine %sendGif% ") refused
                eq_refl eq_refl eq_refl eq_refl (λ _, eq_refl) Hocc eq_refl
                ltac:(by vm_compute) eq_refl)
      as (symbol & rows & Hsym & Hret & Hcalls & Hlogs & Hrows).
    vm_compute in Hsym. injection Hsym as <-. simpl in Hrows. subst rows.
    split; [exact Hret |]. split.
    + etrans; [exact Hcalls | by vm_compute].
    + etrans; [exact Hlogs | by vm_compute].
Defined.

Lemma lane_runs_in_queue_order_witness :
  let h1 := MkHandler 1 (Await (Throw (lit "boom"))) in
  let h2 := MkHandler 2 (Await Return) in
  let h3 := MkHandler 3 Return in
  let sched := [Enqueue 7 (Some 42) h1; Tick 7; Enqueue 7 (Some 42) h2;
                Enqueue 8 None h3; Tick 8; Tick 7] in
  (length (enqueued 7 sched ≫= script) ≤ 7)%nat
  ∧ lane 7 (trace (run (sched ++ replicate 7 (Tick 7)) (init empty_world)))
    = [Started 1; Resumed 1; Failed 1 (lit "boom"); Caught (lit "boom");
       Started 2; Resumed 2; Returned 2].
Proof.
  intros h1 h2 h3 sched.
  assert (length (enqueued 7 sched ≫= script) ≤ 7)%nat as H
    by (vm_compute; lia).
  split; [exact H |].
  rewrite (proj2 (lane_runs_in_queue_order empty_world sched 7) 7%nat H).
  reflexivity.
Defined.

End Runs.

(** ** The further properties on concrete runs *)

Section MoreRuns.
Import JS RegExp Ai Index.

Lemma sent_ids_bounded_witness :
  ∃ l,
    lastBotMessages
      (handleMessages sample_process_env
         (replicate 12 (sample_env (lit "ok"), sample_ctx 100, lit "hi", true))
         (MkWorld ∅ ∅ [] [] [])) !! 7 = Some l
    ∧ length l = 10%nat ∧ (length l ≤ 10)%nat.
Proof.
  eexists. split; [by vm_compute |]. split; [reflexivity |].
  eapply (sent_ids_bounded sample_process_env
            (replicate 12 (sample_env (lit "ok"), sample_ctx 100, lit "hi", true))
            ∅ [] [] [] 7).
  by vm_compute.
Defined.

Lemma fresh_trigger_has_no_memory_witness :
  let w := (handleMessage sample_process_env (sample_env (lit "ok"))
              (sample_ctx 100) (lit "hi") true empty_world).2 in
  let w' := (handleMessage sample_process_env (sample_env (lit "ok"))
               (sample_ctx 102) (lit "again") false w).2 in
  messageContexts w' = messageContexts w
  ∧ lastBotMessages w' = lastBotMessages w
  ∧ Post [MkTurn system (lit "You are Gado."); MkTurn user (lit "Ann: again")]
    ∈ calls w'.
Proof.
  intros w w'.
  destruct (fresh_trigger_has_no_memory sample_process_env
              (sample_env (lit "ok")) (sample_ctx 102) (lit "again") w)
    as (Hc & Hi & new & Hn & Hall).
  split; [exact Hc |]. split; [exact Hi |].
  assert (∃ messages, Post messages ∈ new) as [messages Hin].
  { apply (f_equal (drop (length (calls w)))) in Hn.
    rewrite drop_app_length in Hn. rewrite <- Hn. vm_compute.
    eexists. apply list_elem_of_further, list_elem_of_here. }
  subst w'. rewrite Hn. apply elem_of_app. right.
  assert (messages = [MkTurn system (lit "You are Gado.");
                      MkTurn user (lit "Ann: again")]) as <-
    by (rewrite (Hall messages Hin); by vm_compute).
  exact Hin.
Defined.

Lemma last_exchange_is_forwarded_witness :
  let w := (handleMessage sample_process_env (sample_env (lit "ok"))
              (sample_ctx 100) (lit "hi") true empty_world).2 in
  messageContexts w !! 7
  = Some ([] ++ [MkTurn user (lit "hi"); MkTurn assistant (lit "ok")])
  ∧ ∃ new,
      calls (handleMessage sample_process_env (sample_env (lit "fine"))
               (sample_ctx 102) (lit "more") true w).2 = calls w ++ new
      ∧ ∀ messages,
          Post messages ∈ new →
          ∃ older prompt,
            messages = older ++ [MkTurn user (lit "hi");
                                 MkTurn assistant (lit "ok");
                                 MkTurn user prompt].
Proof.
  intros w.
  assert (messageContexts w !! 7
          = Some ([] ++ [MkTurn user (lit "hi"); MkTurn assistant (lit "ok")]))
    as H by (by vm_compute).
  split; [exact H |].
  exact (last_exchange_is_forwarded sample_process_env (sample_env (lit "fine"))
           (sample_ctx 102) (lit "more") w 7 [] _ _ eq_refl H).
Defined.

Lemma gif_command_sends_cached_row_witness :
  let w := (handleGifUpload sample_process_env (sample_env []) (sample_ctx 100)
              empty_world).2 in
  gifs w ≠ []
  ∧ handleGifCommand (sample_env []) (sample_ctx 101) empty_world
    = (Returns false, empty_world)
  ∧ ∃ row b rows,
      row ∈ gifs w
      ∧ handleGifCommand (sample_env []) (sample_ctx 101) w
        = (Returns b,
           MkWorld (messageContexts w) (lastBotMessages w) (logs w ++ rows)
             (gifs w)
             (calls w ++ [ReplyWithAnimation (base64 row)
                            (lit "gif_" ++ hash row ++ lit ".mp4")]))
      ∧ b = true
      ∧ rows = [MkLog (lit "GIF_SENT") (lit "SYSTEM") (VStr (hash row))
                  (from_id (sample_ctx 101))].
Proof.
  intros w.
  assert (gifs w ≠ []) as H by (by vm_compute).
  split; [exact H |]. split.
  - exact (proj1 (gif_command_sends_cached_row (sample_env []) (sample_ctx 101)
                    empty_world) eq_refl).
  - exact (proj2 (gif_command_sends_cached_row (sample_env []) (sample_ctx 101)
                    w) H).
Defined.

Lemma reaction_reports_success_witness :
  (handleReaction (sample_env []) (sample_ctx 100) (VStr [55357; 56397]%N)
     empty_world).1 = Returns true.
Proof.
  destruct (reaction_reports_success (sample_env []) (sample_ctx 100)
              (VStr [55357; 56397]%N) empty_world)
    as (b & rows & new & -> & Hiff & _).
  simpl. f_equal. apply Hiff. repeat split. by eexists.
Defined.

Lemma gif_upload_failures_witness :
  let env := MkEnv (Returns ()) (λ _, Returns (Scalar VNull)) (Returns ()) 0
               (Returns ()) (Returns ()) (Returns 500)
               (Throws (lit "file is too big")) (Throws (lit "unused"))
               sample_engine in
  getFile env = Throws (lit "file is too big")
  ∧ handleGifUpload sample_process_env env (sample_ctx 100) empty_world
    = (Returns (),
       MkWorld ∅ ∅
         [MkLog (lit "ERROR") (lit "SYSTEM")
            (VStr (lit "GIF upload failed" ++ lit ": " ++ lit "file is too big"))
            (Some 42)]
         [] [GetFile]).
Proof.
  intros env. split; [reflexivity |].
  exact (proj1 (gif_upload_failures sample_process_env env (sample_ctx 100)
                  empty_world) (lit "file is too big") eq_refl).
Defined.

Lemma escape_guards_reserved_witness :
  (46%N ∈ reserved ∧ escape (lit "a.b") !! 2%nat = Some 46%N)
  ∧ (∃ j, 2%nat = S j ∧ escape (lit "a.b") !! j = Some 92%N)
  ∧ escape (lit "ab") = lit "ab".
Proof.
  assert (46%N ∈ reserved) as H
    by (apply (bool_decide_eq_true_1 (46%N ∈ reserved)); by vm_compute).
  split; [by split |]. split.
  - exact (proj1 (escape_guards_reserved (lit "a.b")) 2%nat 46%N eq_refl H).
  - apply (proj1 (proj2 (escape_guards_reserved (lit "ab")))).
    intros c Hc. apply (bool_decide_eq_false_1 (c ∈ reserved)).
    vm_compute in Hc.
    apply elem_of_cons in Hc as [-> | Hc]; [by vm_compute |].
    apply list_elem_of_singleton in Hc as ->. by vm_compute.
Defined.

Lemma escape_injective_witness :
  escape (lit "1.5 (ok)") = lit "1\.5 \(ok\)"
  ∧ ∀ s, escape s = lit "1\.5 \(ok\)" → s = lit "1.5 (ok)".
Proof.
  split; [by vm_compute |].
  intros s Hs. apply escape_injective. rewrite Hs. by vm_compute.
Defined.

Lemma extractCommand_only_removes_witness :
  let response := lit " hi %sendGif% there %sendGif% " in
  str_match response sendGifPattern = Some (MatchArray 4 (lit "%sendGif%") [])
  ∧ (length (extractCommand response sendGifPattern).2 + 9 ≤ length response)%nat.
Proof.
  intros response.
  assert (str_match response sendGifPattern
          = Some (MatchArray 4 (lit "%sendGif%") [])) as H by (by vm_compute).
  split; [exact H |].
  exact (proj2 (extractCommand_only_removes response sendGifPattern) _ H).
Defined.

Lemma picture_failure_is_rethrown_witness :
  let env := Picture.MkEnv 1234 (Throws (lit "timeout of 30000ms exceeded"))
               [Returns (); Throws (lit "flood")] (Returns ()) []
               (lit "URI error") in
  let ctx := Picture.MkContext (sample_ctx 100) None in
  let w := Picture.MkWorld empty_world [] 0 None in
  let r := Picture.getAIPicture env ctx (lit "a sunset") w in
  r.1 = Throws (lit "timeout of 30000ms exceeded")
  ∧ (∀ data name to, Picture.ReplyWithPhoto data name to ∉ Picture.requests r.2)
  ∧ logs (Picture.ai r.2)
    = [MkLog (lit "ERROR") (lit "SYSTEM")
         (VStr (lit "Image generation failed" ++ lit ": "
                ++ lit "timeout of 30000ms exceeded"))
         (Some 42)].
Proof.
  intros env ctx w r.
  pose proof (picture_failure_is_rethrown env ctx (lit "a sunset") w) as H.
  assert (r.1 = Throws (lit "timeout of 30000ms exceeded")) as E
    by (by vm_compute).
  cbv zeta in H. fold r in H. rewrite E in H.
  destruct H as (_ & Hphoto & Hlogs).
  split; [exact E |]. split; [| exact Hlogs].
  intros data name to Hin.
  destruct (Hphoto data name to Hin) as [Hw | Hr]; [| done].
  by apply elem_of_nil in Hw.
Defined.

Lemma picture_url_is_well_formed_witness :
  let env := Picture.MkEnv 1234 (Returns (Some (lit "/9j/4AAQ"))) [Returns ()]
               (Returns ()) [] (lit "URI error") in
  let ctx := Picture.MkContext (sample_ctx 100) None in
  let w := Picture.MkWorld empty_world [] 0 None in
  Forall (λ c, (c < 65536)%N) (lit "a sunset?")
  ∧ List.filter (λ c, match c with Picture.Get _ => true | _ => false end)
      (Picture.requests (Picture.getAIPicture env ctx (lit "a sunset?") w).2)
    = [Picture.Get
         (lit "https://fluxwebui.com/generate/a%20sunset%3F?width=576&height=1024&seed=234&model=flux&nologo=true&nofeed=true")].
Proof.
  intros env ctx w.
  assert (Forall (λ c, (c < 65536)%N) (lit "a sunset?")) as H
    by (vm_compute; repeat constructor).
  split; [exact H |].
  destruct (picture_url_is_well_formed env ctx (lit "a sunset?") w H)
    as (new & Hn & [Hnil | (encoded & seed & Hf & _)]);
    simpl in Hn; rewrite <- Hn in *; [by vm_compute in Hnil |].
  by vm_compute.
Defined.

End MoreRuns.
